(** * The default validation system chaincode (VSCC)

    A shallow embedding of [core/scc/vscc/validator_onevalidsignature.go]:
    the [Invoke] entry point of [ValidatorOneValidSignature], the signature
    set it builds for every transaction action, and the extra check
    [ValidateLSCCInvocation] applied to invocations of the lifecycle system
    chaincode.

    Conventions of the embedding.
    - A Go [[]byte] whose nil-ness the code tests is an [option bytes]
      ([None] is the nil slice); elsewhere it is its contents.
    - A Go pointer that the code dereferences without a test is an [option];
      dereferencing [None] is the run-time panic of Go.
    - The one slice the code appends to, [ProposalResponsePayload], carries
      the part of its backing array that lies between its length and its
      capacity, because [append] writes there when the new elements fit.
      The slices that are only read (identities, signatures) are their
      contents; they do not overlap that array.
    - The elements of [tx.Actions] and of [Endorsements] are present: a
      decoder stores no nil pointer in a repeated field.
    - The functions of [protos/utils], [common/cauthdsl], [msp/mgmt] and
      [proto] are collaborators: fixed functions gathered in a class; every
      call to one of them is recorded in a log that the code threads along.
    - Calls to the logger have no effect on the result and are left out. *)

From Stdlib Require Import ZArith String Strings.Byte DecimalString Lia.
From stdpp Require Import base list.

Local Open Scope string_scope.
Local Open Scope list_scope.

(** ** Bytes and Go strings *)

Definition bytes := list byte.

(** [string(b)] for a byte slice [b]: the same bytes, as a string. *)
Definition string_of_bytes (b : bytes) : string := string_of_list_byte b.

(** [[]byte(s)] for a string literal [s]. *)
Definition bytes_of_string (s : string) : bytes := list_byte_of_string s.

(** The verb [%d] of [fmt.Sprintf] on an [int32]. *)
Definition sprint_d (z : Z) : string := NilZero.string_of_int (Z.to_int z).

(** ** Go slices that are appended to *)

Module GoSlice.

(** A byte slice together with the spare part of its backing array:
    [len s = length (elems s)] and [cap s = len s + length (spare s)]. *)
Record t := mk { elems : bytes; spare : bytes }.

(** A slice just allocated for its contents, as [make([]byte, n)] followed
    by a copy gives it: no spare capacity. *)
Definition exact (b : bytes) : t := {| elems := b; spare := [] |}.

Definition len (s : t) : nat := length (elems s).
Definition cap (s : t) : nat := length (elems s) + length (spare s).

(** What a slice returned by [append(s, xs...)] designates: either the first
    [len s + n] cells of the backing array of [s], or an array of its own. *)
Inductive ref :=
| Shared (n : nat)
| Owned (b : bytes).

(** [append(s, xs...)] where [s] keeps its length: when [xs] fits in the
    spare capacity it is written after the elements of [s] and the result
    shares the array; otherwise a new array receives [elems s ++ xs].
    The second component is the spare part of the array of [s] afterwards. *)
Definition append (s : t) (xs : bytes) : ref * bytes :=
  if (length xs <=? length (spare s))%nat
  then (Shared (length xs), xs ++ drop (length xs) (spare s))
  else (Owned (elems s ++ xs), spare s).

(** The bytes a reference designates, given the current spare part. *)
Definition read (P : bytes) (tail : bytes) (r : ref) : bytes :=
  match r with
  | Shared n => P ++ take n tail
  | Owned b => b
  end.

End GoSlice.

(** ** Messages

    The message types are declared in [protos/common] and [protos/peer]; the
    records below have the fields that the validator reads. *)

Record Envelope := { Envelope_Payload : bytes; Envelope_Signature : bytes }.

Record Header := { ChannelHeader_bytes : bytes; SignatureHeader_bytes : bytes }.

(** [Payload.Header] is a pointer. *)
Record Payload := { Payload_Header : option Header; Payload_Data : bytes }.

Record ChannelHeader := { ChannelHeader_Type : Z; ChannelId : string }.

Record TransactionAction := { Action_Header : bytes; Action_Payload : bytes }.

Record Transaction := { Actions : list TransactionAction }.

Record Endorsement := { Endorser : bytes; Signature : bytes }.

Record ChaincodeEndorsedAction := {
  ProposalResponsePayload : GoSlice.t;
  Endorsements : list Endorsement
}.

(** [ChaincodeActionPayload.Action] is a pointer. *)
Record ChaincodeActionPayload := {
  ChaincodeProposalPayload_bytes : bytes;
  Action : option ChaincodeEndorsedAction
}.

Record ChaincodeID := { Name : string }.

(** [ChaincodeHeaderExtension.ChaincodeId] is a pointer. *)
Record ChaincodeHeaderExtension := { ChaincodeId : option ChaincodeID }.

Record ChaincodeProposalPayload := { Input_bytes : bytes }.

(** [ChaincodeInput.Args] is a [[][]byte]: [None] is the nil slice. *)
Record ChaincodeInput := { Args : option (list bytes) }.

Record ChaincodeSpec := { Input : option ChaincodeInput }.

Record ChaincodeInvocationSpec := { ChaincodeSpec_ : option ChaincodeSpec }.

(** [common.SignedData]. *)
Record SignedData := {
  Data : bytes;
  Identity : bytes;
  SignedData_Signature : bytes
}.

(** ** The signature set of one action *)

(** An entry of [signatureSet] while the loop runs: the [Data] field is a
    slice returned by [append]. *)
Record entry := {
  entry_Data : GoSlice.ref;
  entry_Identity : bytes;
  entry_Signature : bytes
}.

(** State of the loop over the endorsements: the slice of pointers
    [signatureSet] ([None] is a nil pointer) and the spare part of the
    backing array of [prespBytes]. *)
Definition build_state : Type := list (option entry) * bytes.

(** One iteration: [signatureSet[i] = &common.SignedData{...}]. *)
Definition build_step (prespBytes : GoSlice.t) (i : nat) (endorsement : Endorsement)
    (st : build_state) : build_state :=
  let '(r, tail) :=
    GoSlice.append {| GoSlice.elems := GoSlice.elems prespBytes; GoSlice.spare := snd st |}
                   (Endorser endorsement) in
  (<[ i := Some {| entry_Data := r;
                   entry_Identity := Endorser endorsement;
                   entry_Signature := Signature endorsement |} ]> (fst st),
   tail).

(** [for i, endorsement := range cap.Action.Endorsements], from index [i]. *)
Fixpoint build_loop (prespBytes : GoSlice.t) (i : nat) (es : list Endorsement)
    (st : build_state) : build_state :=
  match es with
  | [] => st
  | endorsement :: es' =>
      build_loop prespBytes (S i) es' (build_step prespBytes i endorsement st)
  end.

(** What a reader of the set sees in an entry once the loop is over. *)
Definition freeze (P tail : bytes) (e : entry) : SignedData :=
  {| Data := GoSlice.read P tail (entry_Data e);
     Identity := entry_Identity e;
     SignedData_Signature := entry_Signature e |}.

(** Lines 126-140: [make([]*common.SignedData, len(Endorsements))], the loop,
    and the set as [policy.Evaluate] receives it. *)
Definition signatureSet (ea : ChaincodeEndorsedAction) : list (option SignedData) :=
  let prespBytes := ProposalResponsePayload ea in
  let st0 : build_state :=
    (replicate (length (Endorsements ea)) None, GoSlice.spare prespBytes) in
  let st := build_loop prespBytes 0 (Endorsements ea) st0 in
  map (option_map (freeze (GoSlice.elems prespBytes) (snd st))) (fst st).

(** The entry the source writes down for an endorsement: payload bytes, then
    the endorser's identity bytes. *)
Definition signed_entry (P : bytes) (e : Endorsement) : SignedData :=
  {| Data := P ++ Endorser e;
     Identity := Endorser e;
     SignedData_Signature := Signature e |}.

(** ** Results of the validator *)

(** The places where the validator gives up, with what each one reports. *)
Inductive failure :=
| IncorrectNumberOfArguments
| NoBlockToValidate
| NoPolicySupplied
| GetEnvelopeFailed (err : string)
| GetPayloadFailed (err : string)
| UnmarshalChannelHeaderFailed (err : string)
| NewPolicyFailed (err : string)
| OnlyEndorserTransactions (ty : Z)
| GetTransactionFailed (err : string)
| GetChaincodeActionPayloadFailed (err : string)
| PolicyEvaluationFailed (err : string)
| GetChaincodeHeaderExtensionFailed (err : string)
| GetChaincodeProposalPayloadFailed (err : string)
| UnmarshalInvocationSpecFailed (err : string)
| InvalidVSCCInvocation
| InvalidLSCCFunction (lsccFunc : string).

(** The message handed to [shim.Error] (or carried by the returned [error]). *)
Definition message (f : failure) : string :=
  match f with
  | IncorrectNumberOfArguments => "Incorrect number of arguments"
  | NoBlockToValidate => "No block to validate"
  | NoPolicySupplied => "No policy supplied"
  | GetEnvelopeFailed err => err
  | GetPayloadFailed err => err
  | UnmarshalChannelHeaderFailed err => err
  | NewPolicyFailed err => err
  | OnlyEndorserTransactions ty =>
      "Only Endorser Transactions are supported, provided type " ++ sprint_d ty
  | GetTransactionFailed err => err
  | GetChaincodeActionPayloadFailed err => err
  | PolicyEvaluationFailed err => "VSCC error: policy evaluation failed, err " ++ err
  | GetChaincodeHeaderExtensionFailed err => err
  | GetChaincodeProposalPayloadFailed err => err
  | UnmarshalInvocationSpecFailed err => err
  | InvalidVSCCInvocation => "VSCC error: committing invalid vscc invocation"
  | InvalidLSCCFunction lsccFunc =>
      "VSCC error: committing an invocation of function " ++ lsccFunc
      ++ " of lscc is invalid"
  end.

(** The failure kinds that the specification tells apart (its section 7),
    assigned to the return sites by their triggers. *)
Inductive ErrorKind :=
| ArgumentError
| DecodeError
| UnsupportedTypeError
| PolicyEvaluationError
| LifecycleInvocationError.

Definition kind (f : failure) : ErrorKind :=
  match f with
  | IncorrectNumberOfArguments | NoBlockToValidate | NoPolicySupplied => ArgumentError
  | GetEnvelopeFailed _ | GetPayloadFailed _ | UnmarshalChannelHeaderFailed _
  | NewPolicyFailed _ | GetTransactionFailed _ | GetChaincodeActionPayloadFailed _
  | GetChaincodeHeaderExtensionFailed _ | GetChaincodeProposalPayloadFailed _
  | UnmarshalInvocationSpecFailed _ => DecodeError
  | OnlyEndorserTransactions _ => UnsupportedTypeError
  | PolicyEvaluationFailed _ => PolicyEvaluationError
  | InvalidVSCCInvocation | InvalidLSCCFunction _ => LifecycleInvocationError
  end.

(** Run-time panics of Go that the validator can raise. *)
Inductive panic := NilDereference | IndexOutOfRange.

(** How a run ends: a value ([shim.Success(nil)] or a nil [error] when the
    value is [tt]), a reported failure, or a panic. *)
Inductive outcome (A : Type) :=
| Ret (a : A)
| Err (f : failure)
| Panic (p : panic).
Arguments Ret {A} a.
Arguments Err {A} f.
Arguments Panic {A} p.

(** A value with an [error], as the collaborators return them. *)
Inductive result (A : Type) :=
| Ok (a : A)
| Error (err : string).
Arguments Ok {A} a.
Arguments Error {A} err.

(** The calls to collaborators, with their arguments. *)
Inductive call :=
| CGetEnvelopeFromBlock (data : bytes)
| CGetPayload (env : Envelope)
| CUnmarshalChannelHeader (b : bytes)
| CNewPolicy (channel : string) (policyBytes : bytes)
| CGetTransaction (b : bytes)
| CGetChaincodeActionPayload (b : bytes)
| CEvaluate (signatureSet : list (option SignedData))
| CGetChaincodeHeaderExtension (hdr : Header)
| CGetChaincodeProposalPayload (b : bytes)
| CUnmarshalInvocationSpec (b : bytes).

(** ** The monad of the validator: an outcome and the log of calls *)

Definition M (A : Type) : Type := list call -> outcome A * list call.

Definition ret {A} (a : A) : M A := fun log => (Ret a, log).

Definition fail {A} (f : failure) : M A := fun log => (Err f, log).

Definition raise {A} (p : panic) : M A := fun log => (Panic p, log).

Definition bind {A B} (m : M A) (k : A -> M B) : M B :=
  fun log =>
    match m log with
    | (Ret a, log') => k a log'
    | (Err f, log') => (Err f, log')
    | (Panic p, log') => (Panic p, log')
    end.

Notation "x <- m ;; k" := (bind m (fun x => k))
  (at level 62, m at next level, right associativity).
Notation "m ;;; k" := (bind m (fun _ => k))
  (at level 62, right associativity).

(** A call [v, err := f(x)] followed by [if err != nil { return ... }]. *)
Definition try {A} (c : call) (r : result A) (wrap : string -> failure) : M A :=
  fun log =>
    (match r with Ok a => Ret a | Error err => Err (wrap err) end, log ++ [c]).

(** [*p] (or [p.f]) for a pointer [p]. *)
Definition deref {A} (p : option A) : M A :=
  match p with
  | Some a => ret a
  | None => raise NilDereference
  end.

(** [s[i]] for a slice with elements [s]. *)
Definition index {A} (s : list A) (i : nat) : M A :=
  match s !! i with
  | Some a => ret a
  | None => raise IndexOutOfRange
  end.

(** [if b == nil { return shim.Error(...) }], then [b] in use. *)
Definition non_nil (b : option bytes) (f : failure) : M bytes :=
  match b with
  | Some contents => ret contents
  | None => fail f
  end.

(** A computation of [M] that only adds calls at the end of the log and whose
    outcome does not depend on the log it starts from. *)
Definition appends {A} (m : M A) : Prop :=
  forall log, m log = (fst (m []), log ++ snd (m [])).

(** ** Collaborators *)

Class Collaborators := {
  (** [policies.Policy] *)
  Policy : Type;
  (** [common.HeaderType_ENDORSER_TRANSACTION], declared in [protos/common] *)
  HeaderType_ENDORSER_TRANSACTION : Z;
  GetEnvelopeFromBlock : bytes -> result Envelope;
  GetPayload : Envelope -> result Payload;
  UnmarshalChannelHeader : bytes -> result ChannelHeader;
  (** [cauthdsl.NewPolicyProvider(mspmgmt.GetManagerForChain(id)).NewPolicy(b)] *)
  NewPolicy : string -> bytes -> result Policy;
  (** [policy.Evaluate(signatureSet)]: [None] is the nil error *)
  Evaluate : Policy -> list (option SignedData) -> option string;
  GetTransaction : bytes -> result Transaction;
  GetChaincodeActionPayload : bytes -> result ChaincodeActionPayload;
  GetChaincodeHeaderExtension : Header -> result ChaincodeHeaderExtension;
  GetChaincodeProposalPayload : bytes -> result ChaincodeProposalPayload;
  (** [proto.Unmarshal(b, cis)] into a fresh [ChaincodeInvocationSpec] *)
  UnmarshalInvocationSpec : bytes -> result ChaincodeInvocationSpec
}.

(** Modelled from the spec: the constants [lscc.DEPLOY] and [lscc.UPGRADE] of
    [core/scc/lscc], which the specification gives as the function names
    "deploy" and "upgrade". *)
Definition DEPLOY : string := "deploy".
Definition UPGRADE : string := "upgrade".

(** ** The validator *)

Section Validator.

Context `{Collaborators}.

(** [err = policy.Evaluate(signatureSet)] and the test of [err]. *)
Definition evaluate (policy : Policy) (ss : list (option SignedData)) : M unit :=
  fun log =>
    (match Evaluate policy ss with
     | None => Ret tt
     | Some err => Err (PolicyEvaluationFailed err)
     end, log ++ [CEvaluate ss]).

(** The test of lines 183-186. [cis] is the address of a fresh struct, so
    [cis == nil] is false. *)
Definition invalid_invocation (cis : ChaincodeInvocationSpec) : bool :=
  match ChaincodeSpec_ cis with
  | None => true
  | Some spec =>
      match Input spec with
      | None => true
      | Some input =>
          match Args input with
          | None => true
          | Some _ => false
          end
      end
  end.

(** [ValidateLSCCInvocation]. In the [switch], the case [lscc.DEPLOY] has an
    empty body and Go does not fall through: control leaves the [switch] and
    reaches the final [return nil]. *)
Definition ValidateLSCCInvocation (cap : ChaincodeActionPayload) : M unit :=
  cpp <- try (CGetChaincodeProposalPayload (ChaincodeProposalPayload_bytes cap))
             (GetChaincodeProposalPayload (ChaincodeProposalPayload_bytes cap))
             GetChaincodeProposalPayloadFailed ;;
  cis <- try (CUnmarshalInvocationSpec (Input_bytes cpp))
             (UnmarshalInvocationSpec (Input_bytes cpp))
             UnmarshalInvocationSpecFailed ;;
  if invalid_invocation cis then fail InvalidVSCCInvocation else
  spec <- deref (ChaincodeSpec_ cis) ;;
  input <- deref (Input spec) ;;
  args <- deref (Args input) ;;
  arg0 <- index args 0 ;;
  let lsccFunc := string_of_bytes arg0 in
  if String.eqb lsccFunc DEPLOY then ret tt
  else if String.eqb lsccFunc UPGRADE then ret tt
  else fail (InvalidLSCCFunction lsccFunc).

(** The body of the loop over [tx.Actions] (lines 119-161). *)
Definition validateAction (policy : Policy) (hdr : Header) (act : TransactionAction)
    : M unit :=
  cap <- try (CGetChaincodeActionPayload (Action_Payload act))
             (GetChaincodeActionPayload (Action_Payload act))
             GetChaincodeActionPayloadFailed ;;
  endorsed <- deref (Action cap) ;;
  evaluate policy (signatureSet endorsed) ;;;
  hdrExt <- try (CGetChaincodeHeaderExtension hdr)
                (GetChaincodeHeaderExtension hdr)
                GetChaincodeHeaderExtensionFailed ;;
  ccid <- deref (ChaincodeId hdrExt) ;;
  if String.eqb (Name ccid) "lscc" then ValidateLSCCInvocation cap else ret tt.

(** [for _, act := range tx.Actions], every [return] inside leaving [Invoke]. *)
Fixpoint validateActions (policy : Policy) (hdr : Header) (acts : list TransactionAction)
    : M unit :=
  match acts with
  | [] => ret tt
  | act :: rest =>
      validateAction policy hdr act ;;; validateActions policy hdr rest
  end.

(** [Invoke], on the arguments returned by [stub.GetArgs()]; a nil argument
    is [None]. *)
Definition Invoke (args : list (option bytes)) : M unit :=
  if (length args <? 3)%nat then fail IncorrectNumberOfArguments else
  arg1 <- index args 1 ;;
  envBytes <- non_nil arg1 NoBlockToValidate ;;
  arg2 <- index args 2 ;;
  policyBytes <- non_nil arg2 NoPolicySupplied ;;
  env <- try (CGetEnvelopeFromBlock envBytes) (GetEnvelopeFromBlock envBytes)
             GetEnvelopeFailed ;;
  payl <- try (CGetPayload env) (GetPayload env) GetPayloadFailed ;;
  hdr <- deref (Payload_Header payl) ;;
  chdr <- try (CUnmarshalChannelHeader (ChannelHeader_bytes hdr))
              (UnmarshalChannelHeader (ChannelHeader_bytes hdr))
              UnmarshalChannelHeaderFailed ;;
  policy <- try (CNewPolicy (ChannelId chdr) policyBytes)
                (NewPolicy (ChannelId chdr) policyBytes)
                NewPolicyFailed ;;
  if negb (ChannelHeader_Type chdr =? HeaderType_ENDORSER_TRANSACTION)%Z
  then fail (OnlyEndorserTransactions (ChannelHeader_Type chdr)) else
  tx <- try (CGetTransaction (Payload_Data payl)) (GetTransaction (Payload_Data payl))
            GetTransactionFailed ;;
  validateActions policy hdr (Actions tx).

End Validator.

(** An entry that the loop can store for endorsement [e] when the payload
    is [P] and the spare part of its array has [n] cells. *)
Definition entry_for (P : bytes) (n : nat) (e : Endorsement) (x : entry) : Prop :=
  entry_Identity x = Endorser e /\
  entry_Signature x = Signature e /\
  ((entry_Data x = GoSlice.Shared (length (Endorser e)) /\ length (Endorser e) <= n)
   \/ (entry_Data x = GoSlice.Owned (P ++ Endorser e) /\ n < length (Endorser e))).

(** ** Observations on a run *)

(** The kind of the reported failure, if the run reported one. *)
Definition failure_kind {A} (o : outcome A) : option ErrorKind :=
  match o with
  | Err f => Some (kind f)
  | _ => None
  end.

(** The guard [ValidateLSCCInvocation] starts with a call that nothing else
    makes, so the log tells how many times it ran. *)
Definition is_guard_call (c : call) : bool :=
  match c with
  | CGetChaincodeProposalPayload _ => true
  | _ => false
  end.

Definition guard_runs (log : list call) : nat :=
  length (List.filter is_guard_call log).

(** The number of calls to [policy.Evaluate] in the log. *)
Definition is_evaluation (c : call) : bool :=
  match c with
  | CEvaluate _ => true
  | _ => false
  end.

Definition evaluations (log : list call) : nat :=
  length (List.filter is_evaluation log).

Section Observations.

Context `{Collaborators}.

(** The evaluations of [policy] in the log that returned a nil error. *)
Definition is_passed_evaluation (policy : Policy) (c : call) : bool :=
  match c with
  | CEvaluate ss =>
      match Evaluate policy ss with
      | None => true
      | Some _ => false
      end
  | _ => false
  end.

Definition passed_evaluations (policy : Policy) (log : list call) : nat :=
  length (List.filter (is_passed_evaluation policy) log).

(** [Invoke] reaches its loop over the actions: the arguments are present,
    every layer decodes, the policy compiles and the header type is
    ENDORSER_TRANSACTION. The last index is the calls made on the way. *)
Inductive unpacks (args : list (option bytes))
  : Policy -> Header -> Transaction -> list call -> Prop :=
| unpacks_intro envBytes policyBytes env payl hdr chdr policy tx :
    args !! 1 = Some (Some envBytes) ->
    args !! 2 = Some (Some policyBytes) ->
    GetEnvelopeFromBlock envBytes = Ok env ->
    GetPayload env = Ok payl ->
    Payload_Header payl = Some hdr ->
    UnmarshalChannelHeader (ChannelHeader_bytes hdr) = Ok chdr ->
    NewPolicy (ChannelId chdr) policyBytes = Ok policy ->
    ChannelHeader_Type chdr = HeaderType_ENDORSER_TRANSACTION ->
    GetTransaction (Payload_Data payl) = Ok tx ->
    unpacks args policy hdr tx
      [CGetEnvelopeFromBlock envBytes; CGetPayload env;
       CUnmarshalChannelHeader (ChannelHeader_bytes hdr);
       CNewPolicy (ChannelId chdr) policyBytes;
       CGetTransaction (Payload_Data payl)].

(** [Invoke] reaches the test of the header type, which finds [ty]
    different from ENDORSER_TRANSACTION; [channel] is the channel of the
    header. *)
Inductive unpacks_other_type (args : list (option bytes))
  : Z -> string -> Prop :=
| unpacks_other_type_intro envBytes env payl hdr chdr :
    3 <= length args ->
    args !! 1 = Some (Some envBytes) ->
    GetEnvelopeFromBlock envBytes = Ok env ->
    GetPayload env = Ok payl ->
    Payload_Header payl = Some hdr ->
    UnmarshalChannelHeader (ChannelHeader_bytes hdr) = Ok chdr ->
    ChannelHeader_Type chdr <> HeaderType_ENDORSER_TRANSACTION ->
    unpacks_other_type args (ChannelHeader_Type chdr) (ChannelId chdr).

(** An action passes: its payload decodes and carries an endorsed action,
    its signature set satisfies the policy, the header extension decodes
    and names a chaincode, and the lifecycle guard accepts the action when
    that chaincode is "lscc". *)
Definition action_passes (policy : Policy) (hdr : Header) (act : TransactionAction)
    : Prop :=
  exists cap endorsed hdrExt ccid,
    GetChaincodeActionPayload (Action_Payload act) = Ok cap
    /\ Action cap = Some endorsed
    /\ Evaluate policy (signatureSet endorsed) = None
    /\ GetChaincodeHeaderExtension hdr = Ok hdrExt
    /\ ChaincodeId hdrExt = Some ccid
    /\ (Name ccid = "lscc" -> fst (ValidateLSCCInvocation cap []) = Ret tt).

(** The invocation specification of the action decodes to [cis]. *)
Definition decodes_to (cap : ChaincodeActionPayload) (cis : ChaincodeInvocationSpec)
    : Prop :=
  exists cpp,
    GetChaincodeProposalPayload (ChaincodeProposalPayload_bytes cap) = Ok cpp
    /\ UnmarshalInvocationSpec (Input_bytes cpp) = Ok cis.

(** The calls that the loop body makes for each of [acts] in turn. *)
Definition calls_of (policy : Policy) (hdr : Header) (acts : list TransactionAction)
    : list call :=
  concat (map (fun act => snd (validateAction policy hdr act [])) acts).

End Observations.

(** The inner chaincode spec, its input or its argument list is absent. *)
Definition absent_somewhere (cis : ChaincodeInvocationSpec) : Prop :=
  ChaincodeSpec_ cis = None
  \/ (exists spec, ChaincodeSpec_ cis = Some spec /\ Input spec = None)
  \/ (exists spec input,
        ChaincodeSpec_ cis = Some spec /\ Input spec = Some input /\ Args input = None).

(** The argument list of a specification that has one. *)
Definition has_args (cis : ChaincodeInvocationSpec) (args : list bytes) : Prop :=
  exists spec input,
    ChaincodeSpec_ cis = Some spec /\ Input spec = Some input /\ Args input = Some args.

(** Two names that differ only in the case of their letters. *)
Definition lower (c : Ascii.ascii) : Ascii.ascii :=
  let n := Ascii.nat_of_ascii c in
  if ((65 <=? n) && (n <=? 90))%nat then Ascii.ascii_of_nat (n + 32) else c.

Fixpoint to_lower (s : string) : string :=
  match s with
  | EmptyString => EmptyString
  | String c s' => String (lower c) (to_lower s')
  end.

Definition case_variant (s t : string) : Prop :=
  s <> t /\ to_lower s = to_lower t.

(** ** Test doubles

    Collaborators for concrete runs, in the manner of the mocks of a Go test:
    fixed functions over small tables. *)

Module Fixture.

Definition b (s : string) : bytes := bytes_of_string s.

Definition bytes_eqb (x y : bytes) : bool :=
  String.eqb (string_of_bytes x) (string_of_bytes y).

(** A toy policy: some entry is signed, the signature of a message being
    the message itself. *)
Definition one_valid_signature (ss : list (option SignedData)) : option string :=
  if existsb (fun o => match o with
                       | Some sd => bytes_eqb (SignedData_Signature sd) (Data sd)
                       | None => false
                       end) ss
  then None
  else Some "signature set did not satisfy policy".

Definition endorsed_by (resp : GoSlice.t) (es : list (string * string))
    : ChaincodeEndorsedAction :=
  {| ProposalResponsePayload := resp;
     Endorsements := map (fun p => {| Endorser := b (fst p); Signature := b (snd p) |}) es |}.

(** Action payloads by name. "good" has one endorsement with a valid
    signature, "forged" one with an invalid signature, "empty" no
    endorsement, "hollow" no endorsed action; "upgrade-good" is "good"
    with another proposal payload. *)
Definition action_payloads (data : bytes) : result ChaincodeActionPayload :=
  let name := string_of_bytes data in
  if String.eqb name "good" then
    Ok {| ChaincodeProposalPayload_bytes := b "deploy";
          Action := Some (endorsed_by (GoSlice.exact (b "resp")) [("alice", "respalice")]) |}
  else if String.eqb name "upgrade-good" then
    Ok {| ChaincodeProposalPayload_bytes := b "upgrade";
          Action := Some (endorsed_by (GoSlice.exact (b "resp")) [("bob", "respbob")]) |}
  else if String.eqb name "invoke-good" then
    Ok {| ChaincodeProposalPayload_bytes := b "invoke";
          Action := Some (endorsed_by (GoSlice.exact (b "resp")) [("bob", "respbob")]) |}
  else if String.eqb name "forged" then
    Ok {| ChaincodeProposalPayload_bytes := b "deploy";
          Action := Some (endorsed_by (GoSlice.exact (b "resp")) [("mallory", "nonsense")]) |}
  else if String.eqb name "empty" then
    Ok {| ChaincodeProposalPayload_bytes := b "deploy";
          Action := Some (endorsed_by (GoSlice.exact (b "resp")) []) |}
  else if String.eqb name "hollow" then
    Ok {| ChaincodeProposalPayload_bytes := b "deploy"; Action := None |}
  else Error "malformed action payload".

Definition spec_with (args : option (list bytes)) : ChaincodeInvocationSpec :=
  {| ChaincodeSpec_ := Some {| Input := Some {| Args := args |} |} |}.

(** Invocation specifications by name: "no-spec", "no-input", "nil-args"
    and "no-args" lack what they say (the last has an empty, non-nil list);
    any other input is the function name, followed by one more argument. *)
Definition spec_of (data : bytes) : ChaincodeInvocationSpec :=
  let name := string_of_bytes data in
  if String.eqb name "no-spec" then {| ChaincodeSpec_ := None |}
  else if String.eqb name "no-input" then {| ChaincodeSpec_ := Some {| Input := None |} |}
  else if String.eqb name "nil-args" then spec_with None
  else if String.eqb name "no-args" then spec_with (Some [])
  else spec_with (Some [data; b "mycc"]).

Definition invocation_specs (data : bytes) : result ChaincodeInvocationSpec :=
  Ok (spec_of data).

Definition header : Header :=
  {| ChannelHeader_bytes := b "chdr"; SignatureHeader_bytes := b "shdr" |}.

(** The transaction whose actions have the payloads named by [acts]. *)
Definition transaction (acts : list string) : Transaction :=
  {| Actions := map (fun a => {| Action_Header := []; Action_Payload := b a |}) acts |}.

(** Collaborators for a header of type [ty] naming the chaincode [ccname]
    and a transaction with the action payloads [acts]. The envelope layers
    decode every input; the policy "garbage" does not compile. *)
Definition collaborators (ty : Z) (ccname : string) (acts : list string)
    : Collaborators :=
  {| Policy := bytes;
     HeaderType_ENDORSER_TRANSACTION := 3;
     GetEnvelopeFromBlock data :=
       Ok {| Envelope_Payload := data; Envelope_Signature := [] |};
     GetPayload env :=
       Ok {| Payload_Header := Some header; Payload_Data := Envelope_Payload env |};
     UnmarshalChannelHeader _ :=
       Ok {| ChannelHeader_Type := ty; ChannelId := "testchainid" |};
     NewPolicy _ policyBytes :=
       if bytes_eqb policyBytes (b "garbage") then Error "malformed policy"
       else Ok policyBytes;
     Evaluate _ ss := one_valid_signature ss;
     GetTransaction _ := Ok (transaction acts);
     GetChaincodeActionPayload := action_payloads;
     GetChaincodeHeaderExtension _ :=
       Ok {| ChaincodeId := Some {| Name := ccname |} |};
     GetChaincodeProposalPayload data := Ok {| Input_bytes := data |};
     UnmarshalInvocationSpec := invocation_specs |}.

(** Collaborators for runs of the lifecycle guard alone. *)
Definition lscc : Collaborators := collaborators 3 "lscc" [].

(** The arguments of a call: function name, envelope, policy. *)
Definition args (envelope policy : option bytes) : list (option bytes) :=
  [Some (b "validate"); envelope; policy].

(** The envelope and the policy of the runs below, and the calls that
    [Invoke] makes on them before its loop. *)
Definition envelope : bytes := b "env".
Definition policy : bytes := b "policy".

Definition run_args : list (option bytes) := args (Some envelope) (Some policy).

Definition prelude : list call :=
  [CGetEnvelopeFromBlock envelope;
   CGetPayload {| Envelope_Payload := envelope; Envelope_Signature := [] |};
   CUnmarshalChannelHeader (b "chdr");
   CNewPolicy "testchainid" policy;
   CGetTransaction envelope].

(** An endorsed action whose payload slice has five spare cells in its
    backing array, endorsed by "alice" and then by "bobby". *)
Definition roomy_action : ChaincodeEndorsedAction :=
  endorsed_by {| GoSlice.elems := b "resp"; GoSlice.spare := b "....." |}
              [("alice", "respalice"); ("bobby", "respbobby")].

(** An action payload whose invocation specification is [spec]. *)
Definition lscc_action (spec : string) : ChaincodeActionPayload :=
  {| ChaincodeProposalPayload_bytes := b spec; Action := None |}.

(** Collaborators like [collaborators] with the pointers of the payload and
    of the header extension, and the tables of the action payloads and of
    the invocation specifications, as given. *)
Definition with_parts (ty : Z) (hdr : option Header) (ccid : option ChaincodeID)
    (acts : list string)
    (payloads : bytes -> result ChaincodeActionPayload)
    (specs : bytes -> result ChaincodeInvocationSpec) : Collaborators :=
  {| Policy := bytes;
     HeaderType_ENDORSER_TRANSACTION := 3;
     GetEnvelopeFromBlock data :=
       Ok {| Envelope_Payload := data; Envelope_Signature := [] |};
     GetPayload env :=
       Ok {| Payload_Header := hdr; Payload_Data := Envelope_Payload env |};
     UnmarshalChannelHeader _ :=
       Ok {| ChannelHeader_Type := ty; ChannelId := "testchainid" |};
     NewPolicy _ policyBytes :=
       if bytes_eqb policyBytes (b "garbage") then Error "malformed policy"
       else Ok policyBytes;
     Evaluate _ ss := one_valid_signature ss;
     GetTransaction _ := Ok (transaction acts);
     GetChaincodeActionPayload := payloads;
     GetChaincodeHeaderExtension _ := Ok {| ChaincodeId := ccid |};
     GetChaincodeProposalPayload data := Ok {| Input_bytes := data |};
     UnmarshalInvocationSpec := specs |}.

(** A payload without header. *)
Definition headless : Collaborators :=
  with_parts 3 None (Some {| Name := "mycc" |}) ["good"] action_payloads invocation_specs.

(** A header extension without chaincode id. *)
Definition nameless (acts : list string) : Collaborators :=
  with_parts 3 (Some header) None acts action_payloads invocation_specs.

(** Decoders that leave no pointer nil and no argument list empty: every
    action payload is endorsed by "alice" over "resp" and carries its own
    bytes as proposal payload; every invocation specification has its input
    as first argument. *)
Definition tidy_payloads (data : bytes) : result ChaincodeActionPayload :=
  if bytes_eqb data (b "bogus") then Error "malformed action payload"
  else Ok {| ChaincodeProposalPayload_bytes := data;
             Action := Some (endorsed_by (GoSlice.exact (b "resp"))
                               [("alice", "respalice")]) |}.

Definition tidy_specs (data : bytes) : result ChaincodeInvocationSpec :=
  Ok (spec_with (Some [data])).

Definition tidy (acts : list string) : Collaborators :=
  with_parts 3 (Some header) (Some {| Name := "lscc" |}) acts tidy_payloads tidy_specs.

(** Invocation specifications that never decode. *)
Definition garbled : Collaborators :=
  with_parts 3 (Some header) (Some {| Name := "lscc" |}) []
    action_payloads (fun _ => Error "malformed invocation spec").

(** Invocation specifications whose first argument is the first six bytes of
    the input and whose second argument is the rest. *)
Definition worded : Collaborators :=
  with_parts 3 (Some header) (Some {| Name := "lscc" |}) []
    action_payloads (fun data => Ok (spec_with (Some [take 6 data; drop 6 data]))).

(** Invocation specifications as a decoder of repeated fields gives them: no
    argument on the wire (here, an empty input) leaves the list nil; any
    other input is the only argument. *)
Definition wire_specs (data : bytes) : result ChaincodeInvocationSpec :=
  match data with
  | [] => Ok (spec_with None)
  | _ :: _ => Ok (spec_with (Some [data]))
  end.

Definition wire : Collaborators :=
  with_parts 3 (Some header) (Some {| Name := "lscc" |}) []
    action_payloads wire_specs.

(** [roomy_action] with "carol" in the place of "bobby". *)
Definition roomy_action' : ChaincodeEndorsedAction :=
  endorsed_by {| GoSlice.elems := b "resp"; GoSlice.spare := b "....." |}
              [("alice", "respalice"); ("carol", "respcarol")].

End Fixture.

(** ** Further observations *)

(** The error of a result, if it is one. *)
Definition error_of {A} (r : result A) : option string :=
  match r with
  | Ok _ => None
  | Error err => Some err
  end.

(** A computation of [M] that does not panic, whatever the log. *)
Definition never_panics {A} (m : M A) : Prop :=
  forall log p, fst (m log) <> Panic p.

Section Provenance.

Context `{Collaborators}.

(** The error that the collaborator returns to a logged call; the
    collaborators are fixed functions, so the call can be made again.
    [policy.Evaluate] is left out: its error is wrapped, not passed on. *)
Definition call_error (c : call) : option string :=
  match c with
  | CGetEnvelopeFromBlock data => error_of (GetEnvelopeFromBlock data)
  | CGetPayload env => error_of (GetPayload env)
  | CUnmarshalChannelHeader data => error_of (UnmarshalChannelHeader data)
  | CNewPolicy channel policyBytes => error_of (NewPolicy channel policyBytes)
  | CGetTransaction data => error_of (GetTransaction data)
  | CGetChaincodeActionPayload data => error_of (GetChaincodeActionPayload data)
  | CEvaluate _ => None
  | CGetChaincodeHeaderExtension hdr => error_of (GetChaincodeHeaderExtension hdr)
  | CGetChaincodeProposalPayload data => error_of (GetChaincodeProposalPayload data)
  | CUnmarshalInvocationSpec data => error_of (UnmarshalInvocationSpec data)
  end.

(** A computation whose decode failures carry, unchanged, the error of the
    last call in the log. *)
Definition verbatim {A} (m : M A) : Prop :=
  forall log f log',
    m log = (Err f, log') ->
    kind f = DecodeError ->
    exists c, last log' = Some c /\ call_error c = Some (message f).

(** The decoders leave no pointer nil that the validator dereferences, and
    no argument list empty that is not nil. *)
Record complete : Prop := {
  complete_header :
    forall env payl, GetPayload env = Ok payl -> Payload_Header payl <> None;
  complete_action :
    forall data cap, GetChaincodeActionPayload data = Ok cap -> Action cap <> None;
  complete_chaincode_id :
    forall hdr hdrExt,
      GetChaincodeHeaderExtension hdr = Ok hdrExt -> ChaincodeId hdrExt <> None;
  complete_args :
    forall data cis, UnmarshalInvocationSpec data = Ok cis -> ~ has_args cis []
}.

End Provenance.

(** ** The arguments of an invocation, and what follows the argument check *)

(** The arguments of a specification, as [len] and [range] see them: a nil
    list, or a list behind a nil pointer, has none. *)
Definition arguments (cis : ChaincodeInvocationSpec) : list bytes :=
  match ChaincodeSpec_ cis with
  | Some spec =>
      match Input spec with
      | Some input =>
          match Args input with
          | Some args => args
          | None => []
          end
      | None => []
      end
  | None => []
  end.

(** A computation of [M] that reports no argument error. *)
Definition no_argument_error {A} (m : M A) : Prop :=
  forall log, failure_kind (fst (m log)) <> Some ArgumentError.

Section Decoder.

Context `{Collaborators}.

(** What the validator relies on for [Args[0]]: [proto.Unmarshal] appends to
    a repeated field one element per occurrence on the wire, and leaves the
    field nil when there is none, so a decoded argument list is nil or has a
    first argument. *)
Definition repeated_nil_or_nonempty : Prop :=
  forall data cis, UnmarshalInvocationSpec data = Ok cis -> ~ has_args cis [].

End Decoder.

(** ** Facts about [append] and the signature set *)

Section SignatureSet.

Variable prespBytes : GoSlice.t.

Lemma append_spare_length (s : GoSlice.t) (xs : bytes) :
  length (snd (GoSlice.append s xs)) = length (GoSlice.spare s).
Proof.
  unfold GoSlice.append.
  destruct (Nat.leb_spec (length xs) (length (GoSlice.spare s))) as [Hle | Hgt]; simpl.
  - rewrite length_app, length_drop. lia.
  - reflexivity.
Qed.

(** Right after [append] returns, the slice it returned reads as the old
    elements followed by the new ones. *)
Lemma append_read (s : GoSlice.t) (xs : bytes) :
  GoSlice.read (GoSlice.elems s) (snd (GoSlice.append s xs)) (fst (GoSlice.append s xs))
  = GoSlice.elems s ++ xs.
Proof.
  unfold GoSlice.append.
  destruct (Nat.leb_spec (length xs) (length (GoSlice.spare s))) as [Hle | Hgt]; simpl.
  - f_equal. rewrite take_app_length. reflexivity.
  - reflexivity.
Qed.

(** What [append] returns: a view of [length xs] more cells of the shared
    array when there is room, an array of its own otherwise. *)
Lemma append_ref (s : GoSlice.t) (xs : bytes) :
  (fst (GoSlice.append s xs) = GoSlice.Shared (length xs)
   /\ length xs <= length (GoSlice.spare s))
  \/ (fst (GoSlice.append s xs) = GoSlice.Owned (GoSlice.elems s ++ xs)
      /\ length (GoSlice.spare s) < length xs).
Proof.
  unfold GoSlice.append.
  destruct (Nat.leb_spec (length xs) (length (GoSlice.spare s))) as [Hle | Hgt]; simpl.
  - left. split; [reflexivity | exact Hle].
  - right. split; [reflexivity | exact Hgt].
Qed.

Lemma build_step_fst_length i e st :
  length (fst (build_step prespBytes i e st)) = length (fst st).
Proof.
  unfold build_step.
  destruct (GoSlice.append _ _) as [r tail]. simpl. apply length_insert.
Qed.

Lemma build_step_snd_length i e st :
  length (snd (build_step prespBytes i e st)) = length (snd st).
Proof.
  unfold build_step.
  pose proof (append_spare_length
    {| GoSlice.elems := GoSlice.elems prespBytes; GoSlice.spare := snd st |}
    (Endorser e)) as Hl.
  destruct (GoSlice.append _ _) as [r tail]. simpl in *. exact Hl.
Qed.

Lemma build_step_other i j e st :
  i <> j -> fst (build_step prespBytes i e st) !! j = fst st !! j.
Proof.
  intros Hne. unfold build_step.
  destruct (GoSlice.append _ _) as [r tail]. simpl.
  apply list_lookup_insert_ne. exact Hne.
Qed.

Lemma build_step_here i e st :
  i < length (fst st) ->
  exists x, fst (build_step prespBytes i e st) !! i = Some (Some x)
            /\ entry_for (GoSlice.elems prespBytes) (length (snd st)) e x.
Proof.
  intros Hlt. unfold build_step.
  pose proof (append_ref
    {| GoSlice.elems := GoSlice.elems prespBytes; GoSlice.spare := snd st |}
    (Endorser e)) as Href.
  destruct (GoSlice.append _ _) as [r tail]. simpl in *.
  eexists. split.
  - apply list_lookup_insert_eq. exact Hlt.
  - unfold entry_for. simpl. repeat split. exact Href.
Qed.

Lemma build_loop_fst_length es : forall i st,
  length (fst (build_loop prespBytes i es st)) = length (fst st).
Proof.
  induction es as [| e es IH]; intros i st; simpl.
  - reflexivity.
  - rewrite IH. apply build_step_fst_length.
Qed.

Lemma build_loop_snd_length es : forall i st,
  length (snd (build_loop prespBytes i es st)) = length (snd st).
Proof.
  induction es as [| e es IH]; intros i st; simpl.
  - reflexivity.
  - rewrite IH. apply build_step_snd_length.
Qed.

(** The loop from index [i] leaves the cells below [i] alone. *)
Lemma build_loop_below es : forall i j st,
  j < i -> fst (build_loop prespBytes i es st) !! j = fst st !! j.
Proof.
  induction es as [| e es IH]; intros i j st Hlt; simpl.
  - reflexivity.
  - rewrite IH by lia. apply build_step_other. lia.
Qed.

(** The cell [i + k] receives the entry of the [k]-th endorsement. *)
Lemma build_loop_at es : forall i k st e,
  es !! k = Some e ->
  i + k < length (fst st) ->
  exists x, fst (build_loop prespBytes i es st) !! (i + k) = Some (Some x)
            /\ entry_for (GoSlice.elems prespBytes) (length (snd st)) e x.
Proof.
  induction es as [| e0 es IH]; intros i k st e Hk Hlt.
  - discriminate.
  - destruct k as [| k]; simpl in Hk |- *.
    + injection Hk as ->. rewrite Nat.add_0_r in *.
      rewrite build_loop_below by lia.
      apply build_step_here. exact Hlt.
    + replace (i + S k) with (S i + k) by lia.
      destruct (IH (S i) k (build_step prespBytes i e0 st) e Hk) as (x & Hx & Hfor).
      * rewrite build_step_fst_length. lia.
      * exists x. split; [exact Hx |].
        rewrite build_step_snd_length in Hfor. exact Hfor.
Qed.

End SignatureSet.

Lemma signatureSet_length (ea : ChaincodeEndorsedAction) :
  length (signatureSet ea) = length (Endorsements ea).
Proof.
  unfold signatureSet. cbv zeta.
  rewrite length_map, build_loop_fst_length. simpl. apply length_replicate.
Qed.

(** The cell [i] of the finished set, for the [i]-th endorsement. *)
Lemma signatureSet_lookup (ea : ChaincodeEndorsedAction) (i : nat) (e : Endorsement) :
  Endorsements ea !! i = Some e ->
  exists x tail,
    signatureSet ea !! i
      = Some (Some (freeze (GoSlice.elems (ProposalResponsePayload ea)) tail x))
    /\ length tail = length (GoSlice.spare (ProposalResponsePayload ea))
    /\ entry_for (GoSlice.elems (ProposalResponsePayload ea))
                 (length (GoSlice.spare (ProposalResponsePayload ea))) e x.
Proof.
  intros Hi.
  pose proof (lookup_lt_Some _ _ _ Hi) as Hlt.
  set (st0 := (replicate (length (Endorsements ea)) (@None entry),
               GoSlice.spare (ProposalResponsePayload ea))).
  destruct (build_loop_at (ProposalResponsePayload ea) (Endorsements ea) 0 i st0 e Hi)
    as (x & Hx & Hfor).
  { simpl. rewrite length_replicate. exact Hlt. }
  exists x, (snd (build_loop (ProposalResponsePayload ea) 0 (Endorsements ea) st0)).
  split; [| split].
  - unfold signatureSet. cbv zeta. fold st0.
    change (map ?f ?l) with (f <$> l).
    rewrite list_lookup_fmap. simpl in Hx. rewrite Hx. reflexivity.
  - apply build_loop_snd_length.
  - exact Hfor.
Qed.

(** X1. When the payload slice has no spare capacity, every [append] allocates
    (or, for an empty identity, returns the payload itself), and the set is
    the endorsements mapped to their entries. *)
Lemma signatureSet_exact (ea : ChaincodeEndorsedAction) :
  GoSlice.spare (ProposalResponsePayload ea) = [] ->
  signatureSet ea
  = map (fun e => Some (signed_entry (GoSlice.elems (ProposalResponsePayload ea)) e))
        (Endorsements ea).
Proof.
  intros Hexact. apply list_eq. intros i.
  change (map ?f ?l) with (f <$> l). rewrite list_lookup_fmap.
  destruct (Endorsements ea !! i) as [e |] eqn:Hi; simpl.
  - destruct (signatureSet_lookup ea i e Hi) as (x & tail & Hx & Hlen & Hid & Hsig & Hdata).
    rewrite Hx. do 2 f_equal.
    unfold freeze, signed_entry. rewrite Hid, Hsig. f_equal.
    rewrite Hexact in Hdata. simpl in Hdata.
    destruct Hdata as [[-> Hle] | [-> _]]; simpl.
    + destruct (Endorser e); [| simpl in Hle; lia].
      rewrite take_0. reflexivity.
    + reflexivity.
  - apply lookup_ge_None. rewrite signatureSet_length.
    apply lookup_ge_None in Hi. exact Hi.
Qed.

(** X16. Whatever the capacity of the payload slice, the signature set has
    one entry per endorsement and no other; the entry at index [i] carries
    the identity and the signature of the endorsement at index [i], and data
    that starts with the payload and is as long as the payload followed by
    that identity; an action without endorsements gives the empty set. What
    the data holds after the payload is not settled here. *)
Theorem signatureSet_follows_endorsements (ea : ChaincodeEndorsedAction) :
  length (signatureSet ea) = length (Endorsements ea)
  /\ (forall i e, Endorsements ea !! i = Some e ->
        exists sd, signatureSet ea !! i = Some (Some sd)
                   /\ Identity sd = Endorser e
                   /\ SignedData_Signature sd = Signature e
                   /\ length (Data sd)
                      = length (GoSlice.elems (ProposalResponsePayload ea))
                        + length (Endorser e)
                   /\ take (length (GoSlice.elems (ProposalResponsePayload ea))) (Data sd)
                      = GoSlice.elems (ProposalResponsePayload ea))
  /\ (forall i, Endorsements ea !! i = None -> signatureSet ea !! i = None)
  /\ (Endorsements ea = [] -> signatureSet ea = []).
Proof.
  split; [apply signatureSet_length |]. split; [| split].
  - intros i e Hi.
    destruct (signatureSet_lookup ea i e Hi) as (x & tail & Hx & Hlen & Hid & Hsig & Hdata).
    eexists. split; [exact Hx |]. simpl.
    split; [exact Hid |]. split; [exact Hsig |].
    destruct Hdata as [[-> Hle] | [-> _]]; simpl.
    + split.
      * rewrite length_app, length_take. lia.
      * apply take_app_length.
    + split.
      * apply length_app.
      * apply take_app_length.
  - intros i Hi. apply lookup_ge_None. rewrite signatureSet_length.
    apply lookup_ge_None in Hi. exact Hi.
  - intros Hnil. unfold signatureSet. rewrite Hnil. reflexivity.
Qed.


(** ** The log only grows *)

Section Appends.

Context {A B : Type}.

Lemma appends_ret (a : A) : appends (ret a).
Proof. intros log. unfold ret. simpl. rewrite app_nil_r. reflexivity. Qed.

Lemma appends_fail (f : failure) : appends (@fail A f).
Proof. intros log. unfold fail. simpl. rewrite app_nil_r. reflexivity. Qed.

Lemma appends_raise (p : panic) : appends (@raise A p).
Proof. intros log. unfold raise. simpl. rewrite app_nil_r. reflexivity. Qed.

Lemma appends_try (c : call) (r : result A) (wrap : string -> failure) :
  appends (try c r wrap).
Proof. intros log. reflexivity. Qed.

Lemma appends_deref (p : option A) : appends (deref p).
Proof. destruct p; [apply appends_ret | apply appends_raise]. Qed.

Lemma appends_index (s : list A) (i : nat) : appends (index s i).
Proof. unfold index. destruct (s !! i); [apply appends_ret | apply appends_raise]. Qed.

Lemma appends_bind (m : M A) (k : A -> M B) :
  appends m -> (forall a, appends (k a)) -> appends (bind m k).
Proof.
  intros Hm Hk log. unfold bind. rewrite (Hm log).
  destruct (m []) as [[a | f | p] l1]; simpl; [| reflexivity | reflexivity].
  rewrite (Hk a (log ++ l1)), (Hk a l1). simpl.
  rewrite app_assoc. reflexivity.
Qed.

End Appends.

Lemma appends_non_nil (o : option bytes) (f : failure) : appends (non_nil o f).
Proof. destruct o; [apply appends_ret | apply appends_fail]. Qed.

Lemma appends_fst {A} (m : M A) (log : list call) :
  appends m -> fst (m log) = fst (m []).
Proof. intros Hm. rewrite (Hm log). reflexivity. Qed.

Lemma appends_snd {A} (m : M A) (log : list call) :
  appends m -> snd (m log) = log ++ snd (m []).
Proof. intros Hm. rewrite (Hm log). reflexivity. Qed.

Ltac appends_step :=
  first
    [ apply appends_ret | apply appends_fail | apply appends_raise
    | apply appends_try | apply appends_deref | apply appends_index
    | apply appends_non_nil
    | apply appends_bind; [| intros ?]
    | match goal with
      | |- appends (if ?c then _ else _) => destruct c
      end ].

Section ValidatorAppends.

Context `{Collaborators}.

Lemma appends_evaluate policy ss : appends (evaluate policy ss).
Proof. intros log. reflexivity. Qed.

Lemma appends_ValidateLSCCInvocation cap : appends (ValidateLSCCInvocation cap).
Proof. unfold ValidateLSCCInvocation. repeat appends_step. Qed.

Lemma appends_validateAction policy hdr act : appends (validateAction policy hdr act).
Proof.
  unfold validateAction.
  repeat first [ apply appends_evaluate | apply appends_ValidateLSCCInvocation
               | appends_step ].
Qed.

Lemma appends_validateActions policy hdr acts :
  appends (validateActions policy hdr acts).
Proof.
  induction acts as [| act rest IH]; simpl.
  - apply appends_ret.
  - apply appends_bind; [apply appends_validateAction | intros _; exact IH].
Qed.

Lemma appends_Invoke args : appends (Invoke args).
Proof.
  unfold Invoke.
  repeat first [ apply appends_validateActions | appends_step ].
Qed.

End ValidatorAppends.

(** ** The signature set under spare capacity *)

(** C1. When the identities of two successive endorsements have the same
    length and fit in the spare capacity of the payload slice, both calls of
    [append] write into the backing array of that slice and return views of
    it: the entry of the first endorsement reaches the policy with the
    payload followed by the identity of the second endorser. *)
Theorem signatureSet_spare_capacity_overwrites (resp : GoSlice.t) (e1 e2 : Endorsement) :
  length (Endorser e1) = length (Endorser e2) ->
  length (Endorser e2) <= length (GoSlice.spare resp) ->
  signatureSet {| ProposalResponsePayload := resp; Endorsements := [e1; e2] |}
  = [Some {| Data := GoSlice.elems resp ++ Endorser e2;
             Identity := Endorser e1;
             SignedData_Signature := Signature e1 |};
     Some (signed_entry (GoSlice.elems resp) e2)].
Proof.
  intros Hsame Hfits.
  unfold signatureSet, build_loop, build_step, GoSlice.append. cbn [length replicate fst snd
    ProposalResponsePayload Endorsements GoSlice.elems GoSlice.spare].
  rewrite Hsame.
  destruct (Nat.leb_spec (length (Endorser e2)) (length (GoSlice.spare resp)))
    as [_ | Hgt]; [| lia].
  cbn [fst snd].
  destruct (Nat.leb_spec (length (Endorser e2))
              (length (Endorser e1 ++ drop (length (Endorser e2)) (GoSlice.spare resp))))
    as [_ | Hgt].
  2: { rewrite length_app, length_drop in Hgt. lia. }
  cbn. unfold freeze, signed_entry. cbn.
  rewrite take_app_length. reflexivity.
Qed.

Lemma signatureSet_spare_capacity_overwrites_witness :
  signatureSet Fixture.roomy_action
  = [Some {| Data := Fixture.b "resp" ++ Fixture.b "bobby";
             Identity := Fixture.b "alice";
             SignedData_Signature := Fixture.b "respalice" |};
     Some (signed_entry (Fixture.b "resp")
             {| Endorser := Fixture.b "bobby"; Signature := Fixture.b "respbobby" |})].
Proof.
  apply (signatureSet_spare_capacity_overwrites
           {| GoSlice.elems := Fixture.b "resp"; GoSlice.spare := Fixture.b "....." |}
           {| Endorser := Fixture.b "alice"; Signature := Fixture.b "respalice" |}
           {| Endorser := Fixture.b "bobby"; Signature := Fixture.b "respbobby" |}).
  - reflexivity.
  - apply le_n.
Defined.

(** The same set, written out: the data of the entry of "alice" is no longer
    what she signed. *)
Example roomy_action_entries :
  signatureSet Fixture.roomy_action
  = [Some {| Data := Fixture.b "respbobby";
             Identity := Fixture.b "alice";
             SignedData_Signature := Fixture.b "respalice" |};
     Some {| Data := Fixture.b "respbobby";
             Identity := Fixture.b "bobby";
             SignedData_Signature := Fixture.b "respbobby" |}].
Proof. reflexivity. Qed.

(** ** Determinism *)

(** The log has no part in the outcome: a second run of [Invoke] on the same
    arguments, started on the log that the first one left, ends like the
    first one and makes the same calls again. *)
Theorem Invoke_deterministic `{Collaborators} (args : list (option bytes))
    (log : list call) :
  fst (Invoke args (snd (Invoke args log))) = fst (Invoke args log)
  /\ failure_kind (fst (Invoke args (snd (Invoke args log))))
     = failure_kind (fst (Invoke args log))
  /\ snd (Invoke args (snd (Invoke args log)))
     = snd (Invoke args log) ++ snd (Invoke args []).
Proof.
  pose proof (appends_Invoke args) as Happ.
  assert (Hfst : fst (Invoke args (snd (Invoke args log))) = fst (Invoke args log)).
  { rewrite (appends_fst _ (snd (Invoke args log)) Happ).
    rewrite (appends_fst _ log Happ). reflexivity. }
  split; [exact Hfst |]. split.
  - rewrite Hfst. reflexivity.
  - apply appends_snd. exact Happ.
Qed.

(** ** The check of the arguments *)

Lemma Invoke_too_few_arguments `{Collaborators} (args : list (option bytes)) log :
  length args < 3 -> Invoke args log = (Err IncorrectNumberOfArguments, log).
Proof.
  intros Hlt. unfold Invoke.
  destruct (Nat.ltb_spec (length args) 3) as [_ | Hge]; [reflexivity | lia].
Qed.

(** With fewer than three arguments, or with a nil envelope or a nil policy,
    [Invoke] reports an argument error and calls no collaborator. *)
Theorem Invoke_argument_check `{Collaborators} (args : list (option bytes))
    (log : list call) :
  length args < 3 \/ args !! 1 = Some None \/ args !! 2 = Some None ->
  exists f, Invoke args log = (Err f, log) /\ kind f = ArgumentError.
Proof.
  intros Hargs.
  destruct (Nat.ltb_spec (length args) 3) as [Hlt | Hge].
  { exists IncorrectNumberOfArguments.
    split; [apply Invoke_too_few_arguments; exact Hlt | reflexivity]. }
  unfold Invoke.
  destruct (Nat.ltb_spec (length args) 3) as [Hlt | _]; [lia |].
  destruct (lookup_lt_is_Some_2 args 1) as [arg1 Harg1]; [lia |].
  destruct (lookup_lt_is_Some_2 args 2) as [arg2 Harg2]; [lia |].
  unfold bind, index. rewrite Harg1. simpl.
  destruct arg1 as [envBytes |]; simpl.
  - rewrite Harg2. simpl.
    destruct arg2 as [policyBytes |]; simpl.
    + exfalso. destruct Hargs as [Hlt | [Hnil | Hnil]]; [lia | congruence | congruence].
    + exists NoPolicySupplied. split; reflexivity.
  - exists NoBlockToValidate. split; reflexivity.
Qed.

Lemma Invoke_argument_check_witness :
  exists f,
    @Invoke (Fixture.collaborators 3 "mycc" ["good"])
            (Fixture.args None (Some (Fixture.b "policy"))) []
    = (Err f, []) /\ kind f = ArgumentError.
Proof.
  apply (@Invoke_argument_check (Fixture.collaborators 3 "mycc" ["good"])).
  right. left. reflexivity.
Defined.

(** C6, as stated, fails: an envelope or a policy that is present but empty
    is not an argument error; the bytes go to the decoder and to the policy
    provider. *)
Lemma Invoke_empty_arguments_are_decoded :
  (Fixture.args (Some []) (Some (Fixture.b "policy")) !! 1 = Some (Some [])
   /\ failure_kind
        (fst (@Invoke (Fixture.collaborators 3 "mycc" ["good"])
                      (Fixture.args (Some []) (Some (Fixture.b "policy"))) []))
      = None
   /\ In (CGetEnvelopeFromBlock [])
        (snd (@Invoke (Fixture.collaborators 3 "mycc" ["good"])
                      (Fixture.args (Some []) (Some (Fixture.b "policy"))) [])))
  /\ (Fixture.args (Some (Fixture.b "env")) (Some []) !! 2 = Some (Some [])
      /\ failure_kind
           (fst (@Invoke (Fixture.collaborators 3 "mycc" ["good"])
                         (Fixture.args (Some (Fixture.b "env")) (Some [])) []))
         = None
      /\ In (CNewPolicy "testchainid" [])
           (snd (@Invoke (Fixture.collaborators 3 "mycc" ["good"])
                         (Fixture.args (Some (Fixture.b "env")) (Some [])) []))).
Proof.
  split; (split; [reflexivity |]); (split; [reflexivity |]); vm_compute; tauto.
Qed.

(** ** The check of the header type *)

(** What [Invoke] reports for a header of type [ty] other than
    ENDORSER_TRANSACTION on the channel [channel], by the policy argument. *)
Lemma Invoke_unpacks_other_type `{Collaborators} (args : list (option bytes))
    (ty : Z) (channel : string) (policyArg : option bytes) (log : list call) :
  unpacks_other_type args ty channel ->
  args !! 2 = Some policyArg ->
  fst (Invoke args log)
  = Err match policyArg with
        | None => NoPolicySupplied
        | Some policyBytes =>
            match NewPolicy channel policyBytes with
            | Ok _ => OnlyEndorserTransactions ty
            | Error err => NewPolicyFailed err
            end
        end.
Proof.
  intros Hun Hpol.
  destruct Hun as [envBytes env payl hdr chdr Hlen Henv HgetEnv HgetPayl Hhdr Hchdr Hty].
  unfold Invoke.
  destruct (Nat.ltb_spec (length args) 3) as [Hlt | _]; [lia |].
  unfold bind, index, try. rewrite Henv. simpl. rewrite Hpol. simpl.
  destruct policyArg as [policyBytes |]; simpl; [| reflexivity].
  rewrite HgetEnv, HgetPayl, Hhdr. simpl. rewrite Hchdr.
  destruct (NewPolicy (ChannelId chdr) policyBytes) as [policy | err]; [| reflexivity].
  destruct (Z.eqb_spec (ChannelHeader_Type chdr) HeaderType_ENDORSER_TRANSACTION)
    as [Heq | _]; [contradiction | reflexivity].
Qed.

(** C3, as the code has it. For an envelope that decodes down to a channel
    header of a type other than ENDORSER_TRANSACTION, [Invoke] rejects
    whatever the policy argument is; the policy is compiled before the type
    is tested, so the failure is the unsupported type exactly when the policy
    bytes are present and compile, the failure of the compilation when they
    do not compile, and the missing policy when they are nil. *)
Theorem Invoke_rejects_other_types `{Collaborators} (args : list (option bytes))
    (ty : Z) (channel : string) (policyArg : option bytes) (log : list call) :
  unpacks_other_type args ty channel ->
  args !! 2 = Some policyArg ->
  exists f,
    fst (Invoke args log) = Err f
    /\ (forall policyBytes policy,
          policyArg = Some policyBytes -> NewPolicy channel policyBytes = Ok policy ->
          f = OnlyEndorserTransactions ty /\ kind f = UnsupportedTypeError)
    /\ (forall policyBytes err,
          policyArg = Some policyBytes -> NewPolicy channel policyBytes = Error err ->
          f = NewPolicyFailed err /\ kind f = DecodeError)
    /\ (policyArg = None -> f = NoPolicySupplied /\ kind f = ArgumentError).
Proof.
  intros Hun Hpol. eexists. split.
  - apply Invoke_unpacks_other_type; eassumption.
  - split; [| split].
    + intros policyBytes policy -> ->. split; reflexivity.
    + intros policyBytes err -> ->. split; reflexivity.
    + intros ->. split; reflexivity.
Qed.

Lemma Fixture_unpacks_other_type (policy : option bytes) :
  @unpacks_other_type (Fixture.collaborators 1 "mycc" ["good"])
    (Fixture.args (Some (Fixture.b "env")) policy) 1 "testchainid".
Proof.
  exact (@unpacks_other_type_intro (Fixture.collaborators 1 "mycc" ["good"])
           (Fixture.args (Some (Fixture.b "env")) policy)
           (Fixture.b "env") _ _ _ _
           (le_n 3) eq_refl eq_refl eq_refl eq_refl eq_refl
           (fun Heq : 1%Z = 3%Z => Z.lt_neq 1 3 eq_refl Heq)).
Defined.

Lemma Invoke_rejects_other_types_witness :
  exists f,
    fst (@Invoke (Fixture.collaborators 1 "mycc" ["good"])
                 (Fixture.args (Some (Fixture.b "env")) (Some (Fixture.b "policy"))) [])
    = Err f
    /\ (forall policyBytes policy,
          Some (Fixture.b "policy") = Some policyBytes ->
          @NewPolicy (Fixture.collaborators 1 "mycc" ["good"]) "testchainid" policyBytes
          = Ok policy ->
          f = OnlyEndorserTransactions 1 /\ kind f = UnsupportedTypeError)
    /\ (forall policyBytes err,
          Some (Fixture.b "policy") = Some policyBytes ->
          @NewPolicy (Fixture.collaborators 1 "mycc" ["good"]) "testchainid" policyBytes
          = Error err ->
          f = NewPolicyFailed err /\ kind f = DecodeError)
    /\ (Some (Fixture.b "policy") = None -> f = NoPolicySupplied /\ kind f = ArgumentError).
Proof.
  apply (@Invoke_rejects_other_types (Fixture.collaborators 1 "mycc" ["good"])
           (Fixture.args (Some (Fixture.b "env")) (Some (Fixture.b "policy")))
           1%Z "testchainid" (Some (Fixture.b "policy")) []).
  - apply Fixture_unpacks_other_type.
  - reflexivity.
Defined.

(** C3, as stated, fails: on the same envelope of another type, policy bytes
    that do not compile change the failure from the unsupported type to the
    failure of the compilation. *)
Lemma Invoke_other_type_depends_on_policy :
  @unpacks_other_type (Fixture.collaborators 1 "mycc" ["good"])
    (Fixture.args (Some (Fixture.b "env")) (Some (Fixture.b "garbage"))) 1 "testchainid"
  /\ fst (@Invoke (Fixture.collaborators 1 "mycc" ["good"])
                  (Fixture.args (Some (Fixture.b "env")) (Some (Fixture.b "garbage"))) [])
     = Err (NewPolicyFailed "malformed policy")
  /\ kind (NewPolicyFailed "malformed policy") = DecodeError
  /\ fst (@Invoke (Fixture.collaborators 1 "mycc" ["good"])
                  (Fixture.args (Some (Fixture.b "env")) (Some (Fixture.b "policy"))) [])
     = Err (OnlyEndorserTransactions 1).
Proof.
  split; [apply Fixture_unpacks_other_type |].
  split; [reflexivity |]. split; reflexivity.
Qed.

(** ** The lifecycle guard *)

Section Guard.

Context `{Collaborators}.

(** The guard up to the nil checks, on a specification that decodes. *)
Lemma ValidateLSCCInvocation_decoded cap cis log :
  decodes_to cap cis ->
  fst (ValidateLSCCInvocation cap log)
  = fst ((if invalid_invocation cis then fail InvalidVSCCInvocation else
          spec <- deref (ChaincodeSpec_ cis) ;;
          input <- deref (Input spec) ;;
          args <- deref (Args input) ;;
          arg0 <- index args 0 ;;
          if String.eqb (string_of_bytes arg0) DEPLOY then ret tt
          else if String.eqb (string_of_bytes arg0) UPGRADE then ret tt
          else fail (InvalidLSCCFunction (string_of_bytes arg0))) []).
Proof.
  intros (cpp & Hcpp & Hcis).
  rewrite (appends_fst _ log (appends_ValidateLSCCInvocation cap)).
  unfold ValidateLSCCInvocation at 1.
  unfold bind at 1. unfold try at 1. rewrite Hcpp.
  unfold bind at 1. unfold try at 1. rewrite Hcis.
  match goal with
  | |- fst (?m _) = fst (?m' _) => change m' with m; apply (appends_fst m)
  end.
  repeat appends_step.
Qed.

(** The guard on a specification with the argument list [args]. *)
Lemma ValidateLSCCInvocation_args cap cis args log :
  decodes_to cap cis ->
  has_args cis args ->
  fst (ValidateLSCCInvocation cap log)
  = match args with
    | [] => Panic IndexOutOfRange
    | arg0 :: _ =>
        if String.eqb (string_of_bytes arg0) DEPLOY then Ret tt
        else if String.eqb (string_of_bytes arg0) UPGRADE then Ret tt
        else Err (InvalidLSCCFunction (string_of_bytes arg0))
    end.
Proof.
  intros Hdec (spec & input & Hspec & Hinput & Hargs).
  rewrite (ValidateLSCCInvocation_decoded cap cis log Hdec).
  unfold invalid_invocation, bind, deref, index, ret.
  rewrite Hspec. simpl. rewrite Hinput. simpl. rewrite Hargs. simpl.
  destruct args as [| arg0 rest]; simpl; [reflexivity |].
  destruct (String.eqb (string_of_bytes arg0) DEPLOY); [reflexivity |].
  destruct (String.eqb (string_of_bytes arg0) UPGRADE); reflexivity.
Qed.

(** C2. On a specification that passes the nil checks and has a first
    argument, the guard accepts exactly the function names "deploy" and
    "upgrade", compared byte for byte; every other name, among them the
    empty name, "invoke" and the names that differ from "deploy" or
    "upgrade" in case only, is rejected with a lifecycle invocation error
    that carries the name. *)
Theorem ValidateLSCCInvocation_allow_list cap cis arg0 rest log :
  decodes_to cap cis ->
  has_args cis (arg0 :: rest) ->
  (fst (ValidateLSCCInvocation cap log) = Ret tt
   <-> string_of_bytes arg0 = "deploy" \/ string_of_bytes arg0 = "upgrade")
  /\ (string_of_bytes arg0 <> "deploy" -> string_of_bytes arg0 <> "upgrade" ->
      fst (ValidateLSCCInvocation cap log)
      = Err (InvalidLSCCFunction (string_of_bytes arg0))
      /\ failure_kind (fst (ValidateLSCCInvocation cap log))
         = Some LifecycleInvocationError)
  /\ (string_of_bytes arg0 = "" \/ string_of_bytes arg0 = "invoke"
      \/ case_variant (string_of_bytes arg0) "deploy"
      \/ case_variant (string_of_bytes arg0) "upgrade" ->
      failure_kind (fst (ValidateLSCCInvocation cap log))
      = Some LifecycleInvocationError).
Proof.
  intros Hdec Hargs.
  pose proof (ValidateLSCCInvocation_args cap cis (arg0 :: rest) log Hdec Hargs) as Hrun.
  cbv beta iota in Hrun. unfold DEPLOY, UPGRADE in Hrun.
  generalize dependent (string_of_bytes arg0). intros lsccFunc Hrun.
  assert (Hother : lsccFunc <> "deploy" -> lsccFunc <> "upgrade" ->
            fst (ValidateLSCCInvocation cap log) = Err (InvalidLSCCFunction lsccFunc)
            /\ failure_kind (fst (ValidateLSCCInvocation cap log))
               = Some LifecycleInvocationError).
  { intros Hd Hu. rewrite Hrun.
    destruct (String.eqb_spec lsccFunc "deploy") as [Heq | _]; [contradiction |].
    destruct (String.eqb_spec lsccFunc "upgrade") as [Heq | _]; [contradiction |].
    split; reflexivity. }
  split; [| split].
  - rewrite Hrun.
    destruct (String.eqb_spec lsccFunc "deploy") as [Hd | Hd].
    + split; [intros _; left; exact Hd | reflexivity].
    + destruct (String.eqb_spec lsccFunc "upgrade") as [Hu | Hu].
      * split; [intros _; right; exact Hu | reflexivity].
      * split; [discriminate | intros [Heq | Heq]; contradiction].
  - exact Hother.
  - intros Hname. apply Hother.
    + destruct Hname as [Heq | [Heq | [[Hne _] | [_ Hlow]]]].
      * rewrite Heq. discriminate.
      * rewrite Heq. discriminate.
      * exact Hne.
      * intros Heq. rewrite Heq in Hlow. discriminate Hlow.
    + destruct Hname as [Heq | [Heq | [[_ Hlow] | [Hne _]]]].
      * rewrite Heq. discriminate.
      * rewrite Heq. discriminate.
      * intros Heq. rewrite Heq in Hlow. discriminate Hlow.
      * exact Hne.
Qed.

(** C7. When the layers around the invocation specification decode and the
    specification lacks its chaincode spec, the input of that spec or the
    argument list of that input, the guard rejects with the lifecycle
    invocation error "committing invalid vscc invocation". The
    specification itself is never nil: it is a fresh struct. *)
Theorem ValidateLSCCInvocation_rejects_absent cap cis log :
  decodes_to cap cis ->
  absent_somewhere cis ->
  fst (ValidateLSCCInvocation cap log) = Err InvalidVSCCInvocation
  /\ failure_kind (fst (ValidateLSCCInvocation cap log)) = Some LifecycleInvocationError.
Proof.
  intros Hdec Habsent.
  assert (Hrun : fst (ValidateLSCCInvocation cap log) = Err InvalidVSCCInvocation).
  { rewrite (ValidateLSCCInvocation_decoded cap cis log Hdec).
    unfold invalid_invocation.
    destruct Habsent as [Hspec | [(spec & Hspec & Hinput) | (spec & input & Hspec & Hinput & Hargs)]].
    - rewrite Hspec. reflexivity.
    - rewrite Hspec, Hinput. reflexivity.
    - rewrite Hspec, Hinput, Hargs. reflexivity. }
  split; [exact Hrun | rewrite Hrun; reflexivity].
Qed.

(** The nil checks alone do not cover a list that is not nil but empty: on
    such a list the read of [Args[0]] would be out of range. The guard relies
    on the decoder, which leaves the list nil when no argument is on the
    wire. *)
Theorem ValidateLSCCInvocation_empty_args_panics cap cis log :
  decodes_to cap cis ->
  has_args cis [] ->
  fst (ValidateLSCCInvocation cap log) = Panic IndexOutOfRange.
Proof.
  intros Hdec Hargs.
  exact (ValidateLSCCInvocation_args cap cis [] log Hdec Hargs).
Qed.

End Guard.

Lemma Fixture_decodes_to (spec : string) :
  @decodes_to Fixture.lscc (Fixture.lscc_action spec) (Fixture.spec_of (Fixture.b spec)).
Proof.
  exists {| Input_bytes := Fixture.b spec |}. split; reflexivity.
Defined.

Lemma ValidateLSCCInvocation_allow_list_witness :
  (fst (@ValidateLSCCInvocation Fixture.lscc (Fixture.lscc_action "deploy") []) = Ret tt
   <-> string_of_bytes (Fixture.b "deploy") = "deploy"
       \/ string_of_bytes (Fixture.b "deploy") = "upgrade")
  /\ (string_of_bytes (Fixture.b "deploy") <> "deploy" ->
      string_of_bytes (Fixture.b "deploy") <> "upgrade" ->
      fst (@ValidateLSCCInvocation Fixture.lscc (Fixture.lscc_action "deploy") [])
      = Err (InvalidLSCCFunction (string_of_bytes (Fixture.b "deploy")))
      /\ failure_kind
           (fst (@ValidateLSCCInvocation Fixture.lscc (Fixture.lscc_action "deploy") []))
         = Some LifecycleInvocationError)
  /\ (string_of_bytes (Fixture.b "deploy") = ""
      \/ string_of_bytes (Fixture.b "deploy") = "invoke"
      \/ case_variant (string_of_bytes (Fixture.b "deploy")) "deploy"
      \/ case_variant (string_of_bytes (Fixture.b "deploy")) "upgrade" ->
      failure_kind
        (fst (@ValidateLSCCInvocation Fixture.lscc (Fixture.lscc_action "deploy") []))
      = Some LifecycleInvocationError).
Proof.
  apply (@ValidateLSCCInvocation_allow_list Fixture.lscc
           (Fixture.lscc_action "deploy")
           (Fixture.spec_with (Some [Fixture.b "deploy"; Fixture.b "mycc"]))
           (Fixture.b "deploy") [Fixture.b "mycc"] []).
  - exact (Fixture_decodes_to "deploy").
  - exists {| Input := Some {| Args := Some [Fixture.b "deploy"; Fixture.b "mycc"] |} |},
           {| Args := Some [Fixture.b "deploy"; Fixture.b "mycc"] |}.
    split; [reflexivity |]. split; reflexivity.
Defined.

(** The names of the specification, one by one. *)
Example guard_accepts_deploy_and_upgrade :
  fst (@ValidateLSCCInvocation Fixture.lscc (Fixture.lscc_action "deploy") []) = Ret tt
  /\ fst (@ValidateLSCCInvocation Fixture.lscc (Fixture.lscc_action "upgrade") []) = Ret tt.
Proof. split; reflexivity. Qed.

Example guard_rejects_other_names :
  fst (@ValidateLSCCInvocation Fixture.lscc (Fixture.lscc_action "") [])
  = Err (InvalidLSCCFunction "")
  /\ fst (@ValidateLSCCInvocation Fixture.lscc (Fixture.lscc_action "invoke") [])
     = Err (InvalidLSCCFunction "invoke")
  /\ fst (@ValidateLSCCInvocation Fixture.lscc (Fixture.lscc_action "Deploy") [])
     = Err (InvalidLSCCFunction "Deploy")
  /\ fst (@ValidateLSCCInvocation Fixture.lscc (Fixture.lscc_action "UPGRADE") [])
     = Err (InvalidLSCCFunction "UPGRADE")
  /\ message (InvalidLSCCFunction "UPGRADE")
     = "VSCC error: committing an invocation of function UPGRADE of lscc is invalid".
Proof. repeat split. Qed.

Lemma ValidateLSCCInvocation_rejects_absent_witness :
  fst (@ValidateLSCCInvocation Fixture.lscc (Fixture.lscc_action "nil-args") [])
  = Err InvalidVSCCInvocation
  /\ failure_kind
       (fst (@ValidateLSCCInvocation Fixture.lscc (Fixture.lscc_action "nil-args") []))
     = Some LifecycleInvocationError.
Proof.
  apply (@ValidateLSCCInvocation_rejects_absent Fixture.lscc
           (Fixture.lscc_action "nil-args") (Fixture.spec_with None) []).
  - exact (Fixture_decodes_to "nil-args").
  - right. right.
    exists {| Input := Some {| Args := None |} |}, {| Args := None |}.
    split; [reflexivity |]. split; reflexivity.
Defined.

Lemma ValidateLSCCInvocation_empty_args_panics_witness :
  fst (@ValidateLSCCInvocation Fixture.lscc (Fixture.lscc_action "no-args") [])
  = Panic IndexOutOfRange.
Proof.
  apply (@ValidateLSCCInvocation_empty_args_panics Fixture.lscc
           (Fixture.lscc_action "no-args") (Fixture.spec_with (Some [])) []).
  - exact (Fixture_decodes_to "no-args").
  - exists {| Input := Some {| Args := Some [] |} |}, {| Args := Some [] |}.
    split; [reflexivity |]. split; reflexivity.
Defined.

(** ** The loop over the actions *)

Lemma guard_runs_app (l1 l2 : list call) :
  guard_runs (l1 ++ l2) = guard_runs l1 + guard_runs l2.
Proof. unfold guard_runs. rewrite List.filter_app, length_app. reflexivity. Qed.

Section Loop.

Context `{Collaborators}.

Variable policy : Policy.
Variable hdr : Header.

Lemma passed_evaluations_app (l1 l2 : list call) :
  passed_evaluations policy (l1 ++ l2)
  = passed_evaluations policy l1 + passed_evaluations policy l2.
Proof. unfold passed_evaluations. rewrite List.filter_app, length_app. reflexivity. Qed.

(** [Invoke] on arguments that unpack is the prelude's calls followed by
    the loop. *)
Lemma Invoke_unpacks args tx calls log :
  unpacks args policy hdr tx calls ->
  Invoke args log = validateActions policy hdr (Actions tx) (log ++ calls).
Proof.
  intros Hun.
  destruct Hun as [envBytes policyBytes env payl hdr chdr policy tx
                     Harg1 Harg2 Henv Hpayl Hhdr Hchdr Hpolicy Hty Htx].
  pose proof (lookup_lt_Some _ _ _ Harg2) as Hlen.
  unfold Invoke.
  destruct (Nat.ltb_spec (length args) 3) as [Hlt | _]; [lia |].
  unfold bind, index, try. rewrite Harg1. simpl. rewrite Harg2. simpl.
  rewrite Henv, Hpayl, Hhdr. simpl. rewrite Hchdr, Hpolicy, Hty, Z.eqb_refl. simpl.
  rewrite Htx. rewrite <- !app_assoc. reflexivity.
Qed.

(** The outcome of the loop body, check by check. *)
Lemma validateAction_outcome act :
  fst (validateAction policy hdr act [])
  = match GetChaincodeActionPayload (Action_Payload act) with
    | Error err => Err (GetChaincodeActionPayloadFailed err)
    | Ok cap =>
        match Action cap with
        | None => Panic NilDereference
        | Some endorsed =>
            match Evaluate policy (signatureSet endorsed) with
            | Some err => Err (PolicyEvaluationFailed err)
            | None =>
                match GetChaincodeHeaderExtension hdr with
                | Error err => Err (GetChaincodeHeaderExtensionFailed err)
                | Ok hdrExt =>
                    match ChaincodeId hdrExt with
                    | None => Panic NilDereference
                    | Some ccid =>
                        if String.eqb (Name ccid) "lscc"
                        then fst (ValidateLSCCInvocation cap [])
                        else Ret tt
                    end
                end
            end
        end
    end.
Proof.
  unfold validateAction, bind, try, deref, evaluate.
  destruct (GetChaincodeActionPayload (Action_Payload act)) as [cap | err];
    [| reflexivity].
  destruct (Action cap) as [endorsed |]; [| reflexivity]. simpl.
  destruct (Evaluate policy (signatureSet endorsed)) as [err |]; [reflexivity |].
  destruct (GetChaincodeHeaderExtension hdr) as [hdrExt | err]; [| reflexivity].
  destruct (ChaincodeId hdrExt) as [ccid |]; [| reflexivity]. simpl.
  destruct (String.eqb (Name ccid) "lscc"); [| reflexivity].
  apply appends_fst, appends_ValidateLSCCInvocation.
Qed.

Lemma validateAction_passes act :
  fst (validateAction policy hdr act []) = Ret tt <-> action_passes policy hdr act.
Proof.
  rewrite validateAction_outcome. unfold action_passes. split.
  - destruct (GetChaincodeActionPayload (Action_Payload act)) as [cap | err];
      [| discriminate].
    destruct (Action cap) as [endorsed |] eqn:Hact; [| discriminate].
    destruct (Evaluate policy (signatureSet endorsed)) as [err |] eqn:Heval;
      [discriminate |].
    destruct (GetChaincodeHeaderExtension hdr) as [hdrExt | err]; [| discriminate].
    destruct (ChaincodeId hdrExt) as [ccid |] eqn:Hccid; [| discriminate].
    intros Hrun. exists cap, endorsed, hdrExt, ccid.
    repeat (split; [first [reflexivity | assumption] |]).
    intros Hname. rewrite Hname in Hrun. exact Hrun.
  - intros (cap & endorsed & hdrExt & ccid & -> & -> & -> & -> & -> & Hguard).
    destruct (String.eqb_spec (Name ccid) "lscc") as [Hname | _];
      [exact (Hguard Hname) | reflexivity].
Qed.

Lemma validateActions_cons act rest log :
  validateActions policy hdr (act :: rest) log
  = match validateAction policy hdr act log with
    | (Ret _, log') => validateActions policy hdr rest log'
    | (Err f, log') => (Err f, log')
    | (Panic p, log') => (Panic p, log')
    end.
Proof. reflexivity. Qed.

(** When the body succeeds on every action, the loop ends normally after
    the calls of every action. *)
Lemma validateActions_all_pass acts :
  Forall (fun act => fst (validateAction policy hdr act []) = Ret tt) acts ->
  validateActions policy hdr acts [] = (Ret tt, calls_of policy hdr acts).
Proof.
  induction 1 as [| act rest Hact _ IH]; [reflexivity |].
  rewrite validateActions_cons.
  destruct (validateAction policy hdr act []) as [o l] eqn:Hrun.
  simpl in Hact. subst o.
  rewrite (appends_validateActions policy hdr rest l), IH.
  unfold calls_of. simpl. rewrite Hrun. reflexivity.
Qed.

(** The loop stops at the first action on which the body does not succeed,
    with the outcome of that action and without a call for a later one. *)
Lemma validateActions_first_failure pre act post :
  Forall (fun act => fst (validateAction policy hdr act []) = Ret tt) pre ->
  fst (validateAction policy hdr act []) <> Ret tt ->
  validateActions policy hdr (pre ++ act :: post) []
  = (fst (validateAction policy hdr act []),
     calls_of policy hdr pre ++ snd (validateAction policy hdr act [])).
Proof.
  induction 1 as [| act0 rest Hact0 _ IH]; intros Hfail.
  - simpl app. rewrite validateActions_cons.
    destruct (validateAction policy hdr act []) as [[[] | f | p] l];
      simpl in *; [congruence | reflexivity | reflexivity].
  - simpl app. rewrite validateActions_cons.
    destruct (validateAction policy hdr act0 []) as [o l] eqn:Hrun.
    simpl in Hact0. subst o.
    rewrite (appends_validateActions policy hdr (rest ++ act :: post) l), (IH Hfail).
    unfold calls_of. simpl. rewrite Hrun. simpl.
    rewrite app_assoc. reflexivity.
Qed.

Lemma validateActions_Ret acts :
  fst (validateActions policy hdr acts []) = Ret tt ->
  Forall (fun act => fst (validateAction policy hdr act []) = Ret tt) acts.
Proof.
  induction acts as [| act rest IH]; intros Hrun; [constructor |].
  rewrite validateActions_cons in Hrun.
  destruct (validateAction policy hdr act []) as [[[] | f | p] l] eqn:Hact;
    simpl in Hrun; [| discriminate | discriminate].
  constructor.
  - rewrite Hact. reflexivity.
  - apply IH. rewrite <- Hrun. symmetry.
    apply appends_fst, appends_validateActions.
Qed.

End Loop.

Lemma Forall_passes `{Collaborators} policy hdr acts :
  Forall (fun act => fst (validateAction policy hdr act []) = Ret tt) acts
  <-> Forall (action_passes policy hdr) acts.
Proof.
  split; intros Hall; eapply Forall_impl; try exact Hall;
    intros act Hact; simpl in *; apply validateAction_passes; exact Hact.
Qed.

(** C4. Once [Invoke] has unpacked the envelope, it succeeds exactly when
    every action of the transaction passes; when some action does not, the
    outcome is that of the first such action, in order, and the log holds the
    calls of the prelude, of the actions before it and of that action, and
    no call for a later action. *)
Theorem Invoke_all_or_first_failure `{Collaborators} (args : list (option bytes))
    policy hdr tx calls (log : list call) :
  unpacks args policy hdr tx calls ->
  (fst (Invoke args log) = Ret tt <-> Forall (action_passes policy hdr) (Actions tx))
  /\ (Forall (action_passes policy hdr) (Actions tx) ->
      snd (Invoke args log) = log ++ calls ++ calls_of policy hdr (Actions tx))
  /\ (forall pre act post,
        Actions tx = pre ++ act :: post ->
        Forall (action_passes policy hdr) pre ->
        ~ action_passes policy hdr act ->
        fst (validateAction policy hdr act []) <> Ret tt
        /\ Invoke args log
           = (fst (validateAction policy hdr act []),
              log ++ calls ++ calls_of policy hdr pre
              ++ snd (validateAction policy hdr act []))).
Proof.
  intros Hun.
  pose proof (Invoke_unpacks policy hdr args tx calls log Hun) as Hrun.
  pose proof (appends_validateActions policy hdr (Actions tx)) as Happ.
  rewrite (Happ (log ++ calls)) in Hrun.
  split; [| split].
  - rewrite Hrun. simpl. rewrite <- Forall_passes. split.
    + apply validateActions_Ret.
    + intros Hall. rewrite (validateActions_all_pass policy hdr _ Hall). reflexivity.
  - intros Hall. apply Forall_passes in Hall.
    rewrite Hrun, (validateActions_all_pass policy hdr _ Hall). simpl.
    rewrite <- app_assoc. reflexivity.
  - intros pre act post Hsplit Hpre Hact.
    apply Forall_passes in Hpre.
    assert (Hfail : fst (validateAction policy hdr act []) <> Ret tt).
    { intros Hok. apply Hact, validateAction_passes. exact Hok. }
    split; [exact Hfail |].
    rewrite Hrun, Hsplit, (validateActions_first_failure policy hdr pre act post Hpre Hfail).
    simpl. rewrite <- !app_assoc. reflexivity.
Qed.

Lemma Fixture_unpacks (ccname : string) (acts : list string) :
  @unpacks (Fixture.collaborators 3 ccname acts) Fixture.run_args
    Fixture.policy Fixture.header (Fixture.transaction acts) Fixture.prelude.
Proof.
  exact (@unpacks_intro (Fixture.collaborators 3 ccname acts) Fixture.run_args
           Fixture.envelope Fixture.policy _ _ _ _ Fixture.policy _
           eq_refl eq_refl eq_refl eq_refl eq_refl eq_refl eq_refl eq_refl eq_refl).
Defined.

Lemma Invoke_all_or_first_failure_witness :
  (fst (@Invoke (Fixture.collaborators 3 "mycc" ["good"; "forged"; "good"])
                Fixture.run_args []) = Ret tt
   <-> Forall (@action_passes (Fixture.collaborators 3 "mycc" ["good"; "forged"; "good"])
                 Fixture.policy Fixture.header)
              (Actions (Fixture.transaction ["good"; "forged"; "good"])))
  /\ (Forall (@action_passes (Fixture.collaborators 3 "mycc" ["good"; "forged"; "good"])
                Fixture.policy Fixture.header)
             (Actions (Fixture.transaction ["good"; "forged"; "good"])) ->
      snd (@Invoke (Fixture.collaborators 3 "mycc" ["good"; "forged"; "good"])
                   Fixture.run_args [])
      = [] ++ Fixture.prelude
        ++ @calls_of (Fixture.collaborators 3 "mycc" ["good"; "forged"; "good"])
             Fixture.policy Fixture.header
             (Actions (Fixture.transaction ["good"; "forged"; "good"])))
  /\ (forall pre act post,
        Actions (Fixture.transaction ["good"; "forged"; "good"]) = pre ++ act :: post ->
        Forall (@action_passes (Fixture.collaborators 3 "mycc" ["good"; "forged"; "good"])
                  Fixture.policy Fixture.header) pre ->
        ~ @action_passes (Fixture.collaborators 3 "mycc" ["good"; "forged"; "good"])
            Fixture.policy Fixture.header act ->
        fst (@validateAction (Fixture.collaborators 3 "mycc" ["good"; "forged"; "good"])
               Fixture.policy Fixture.header act []) <> Ret tt
        /\ @Invoke (Fixture.collaborators 3 "mycc" ["good"; "forged"; "good"])
                   Fixture.run_args []
           = (fst (@validateAction (Fixture.collaborators 3 "mycc" ["good"; "forged"; "good"])
                     Fixture.policy Fixture.header act []),
              [] ++ Fixture.prelude
              ++ @calls_of (Fixture.collaborators 3 "mycc" ["good"; "forged"; "good"])
                   Fixture.policy Fixture.header pre
              ++ snd (@validateAction (Fixture.collaborators 3 "mycc" ["good"; "forged"; "good"])
                        Fixture.policy Fixture.header act []))).
Proof.
  apply (@Invoke_all_or_first_failure
           (Fixture.collaborators 3 "mycc" ["good"; "forged"; "good"])
           Fixture.run_args Fixture.policy Fixture.header
           (Fixture.transaction ["good"; "forged"; "good"]) Fixture.prelude []).
  apply Fixture_unpacks.
Defined.

(** The run of the specification: of the actions pass, fail the policy, pass,
    the second one decides, and the policy is evaluated twice, not three
    times. *)
Example Invoke_stops_at_second_action :
  fst (@Invoke (Fixture.collaborators 3 "mycc" ["good"; "forged"; "good"])
               Fixture.run_args [])
  = Err (PolicyEvaluationFailed "signature set did not satisfy policy")
  /\ evaluations (snd (@Invoke (Fixture.collaborators 3 "mycc" ["good"; "forged"; "good"])
                               Fixture.run_args [])) = 2
  /\ fst (@Invoke (Fixture.collaborators 3 "mycc" ["good"; "good"; "good"])
                  Fixture.run_args []) = Ret tt
  /\ evaluations (snd (@Invoke (Fixture.collaborators 3 "mycc" ["good"; "good"; "good"])
                               Fixture.run_args [])) = 3.
Proof. repeat split. Qed.

(** ** When the lifecycle guard runs *)

Arguments guard_runs : simpl never.
Arguments passed_evaluations : simpl never.

Section GuardRuns.

Context `{Collaborators}.

Variable policy : Policy.
Variable hdr : Header.
Variable hdrExt : ChaincodeHeaderExtension.
Variable ccid : ChaincodeID.

Hypothesis header_extension : GetChaincodeHeaderExtension hdr = Ok hdrExt.
Hypothesis chaincode_id : ChaincodeId hdrExt = Some ccid.

(** A run of the guard logs its first call once and evaluates no policy. *)
Lemma ValidateLSCCInvocation_counts cap :
  guard_runs (snd (ValidateLSCCInvocation cap [])) = 1
  /\ passed_evaluations policy (snd (ValidateLSCCInvocation cap [])) = 0.
Proof.
  unfold ValidateLSCCInvocation, bind, try, deref, index, fail, ret, raise.
  destruct (GetChaincodeProposalPayload _) as [cpp | err]; simpl; [| split; reflexivity].
  destruct (UnmarshalInvocationSpec _) as [cis | err]; simpl; [| split; reflexivity].
  destruct (invalid_invocation cis); simpl; [split; reflexivity |].
  destruct (ChaincodeSpec_ cis) as [spec |]; simpl; [| split; reflexivity].
  destruct (Input spec) as [input |]; simpl; [| split; reflexivity].
  destruct (Args input) as [args |]; simpl; [| split; reflexivity].
  destruct (args !! 0) as [arg0 |]; simpl; [| split; reflexivity].
  destruct (String.eqb (string_of_bytes arg0) DEPLOY); simpl; [split; reflexivity |].
  destruct (String.eqb (string_of_bytes arg0) UPGRADE); simpl; split; reflexivity.
Qed.

(** In the calls of one action, the guard ran as many times as the policy
    passed when the chaincode is "lscc", and did not run otherwise; an
    action on which the body succeeds has passed the policy once. *)
Lemma validateAction_counts act :
  guard_runs (snd (validateAction policy hdr act []))
  = (if String.eqb (Name ccid) "lscc"
     then passed_evaluations policy (snd (validateAction policy hdr act []))
     else 0)
  /\ (fst (validateAction policy hdr act []) = Ret tt ->
      passed_evaluations policy (snd (validateAction policy hdr act [])) = 1).
Proof.
  unfold validateAction, bind, try, deref, evaluate.
  destruct (GetChaincodeActionPayload (Action_Payload act)) as [cap | err]; simpl;
    [| split; [destruct (String.eqb _ _); reflexivity | discriminate]].
  destruct (Action cap) as [endorsed |]; simpl;
    [| split; [destruct (String.eqb _ _); reflexivity | discriminate]].
  destruct (Evaluate policy (signatureSet endorsed)) as [err |] eqn:Heval; simpl.
  { unfold passed_evaluations. simpl. rewrite Heval.
    split; [destruct (String.eqb _ _); reflexivity | discriminate]. }
  rewrite header_extension, chaincode_id. simpl.
  destruct (String.eqb (Name ccid) "lscc").
  - rewrite (appends_ValidateLSCCInvocation cap _). cbn [fst snd].
    destruct (ValidateLSCCInvocation_counts cap) as [Hguard Hpassed].
    rewrite guard_runs_app, passed_evaluations_app, Hguard, Hpassed.
    unfold passed_evaluations. simpl. rewrite Heval. split; reflexivity.
  - unfold passed_evaluations. simpl. rewrite Heval. split; reflexivity.
Qed.

Lemma validateActions_snd_cons act rest :
  snd (validateActions policy hdr (act :: rest) [])
  = snd (validateAction policy hdr act [])
    ++ match fst (validateAction policy hdr act []) with
       | Ret _ => snd (validateActions policy hdr rest [])
       | _ => []
       end.
Proof.
  rewrite validateActions_cons.
  destruct (validateAction policy hdr act []) as [[[] | f | p] l]; simpl;
    [| rewrite app_nil_r; reflexivity | rewrite app_nil_r; reflexivity].
  apply appends_snd, appends_validateActions.
Qed.

Lemma validateActions_counts acts :
  guard_runs (snd (validateActions policy hdr acts []))
  = (if String.eqb (Name ccid) "lscc"
     then passed_evaluations policy (snd (validateActions policy hdr acts []))
     else 0).
Proof.
  induction acts as [| act rest IH].
  - simpl. destruct (String.eqb _ _); reflexivity.
  - rewrite validateActions_snd_cons, guard_runs_app, passed_evaluations_app.
    destruct (validateAction_counts act) as [Hact _]. rewrite Hact.
    destruct (fst (validateAction policy hdr act [])).
    + rewrite IH. destruct (String.eqb _ _); reflexivity.
    + destruct (String.eqb _ _); reflexivity.
    + destruct (String.eqb _ _); reflexivity.
Qed.

Lemma validateActions_Ret_passed acts :
  fst (validateActions policy hdr acts []) = Ret tt ->
  passed_evaluations policy (snd (validateActions policy hdr acts [])) = length acts.
Proof.
  intros Hrun. apply validateActions_Ret in Hrun.
  induction Hrun as [| act rest Hact _ IH]; [reflexivity |].
  rewrite validateActions_snd_cons, passed_evaluations_app.
  destruct (validateAction_counts act) as [_ Hone].
  rewrite (Hone Hact), Hact, IH. reflexivity.
Qed.

(** C10, as the code has it. With a header extension that decodes and names
    a chaincode, the guard runs for exactly the actions whose policy
    evaluation passed when that name is "lscc", and for no action
    otherwise; no field of an action enters the test. When [Invoke]
    accepts the transaction, the guard has run for every action or for
    none. *)
Theorem guard_runs_by_chaincode_name (args : list (option bytes)) tx calls :
  unpacks args policy hdr tx calls ->
  guard_runs (snd (Invoke args []))
  = (if String.eqb (Name ccid) "lscc"
     then passed_evaluations policy (snd (Invoke args []))
     else 0)
  /\ (fst (Invoke args []) = Ret tt ->
      guard_runs (snd (Invoke args []))
      = if String.eqb (Name ccid) "lscc" then length (Actions tx) else 0).
Proof.
  intros Hun.
  pose proof (Invoke_unpacks policy hdr args tx calls [] Hun) as Hrun.
  change ([] ++ calls) with calls in Hrun.
  rewrite (appends_validateActions policy hdr (Actions tx) calls) in Hrun.
  assert (Hcalls : guard_runs calls = 0 /\ passed_evaluations policy calls = 0).
  { destruct Hun. split; reflexivity. }
  destruct Hcalls as [Hguard Hpassed].
  assert (Hcount : guard_runs (snd (Invoke args []))
                   = if String.eqb (Name ccid) "lscc"
                     then passed_evaluations policy (snd (Invoke args []))
                     else 0).
  { rewrite Hrun. cbn [fst snd].
    rewrite guard_runs_app, passed_evaluations_app, Hguard, Hpassed.
    apply validateActions_counts. }
  split; [exact Hcount |].
  intros Hok. rewrite Hcount.
  destruct (String.eqb (Name ccid) "lscc"); [| reflexivity].
  rewrite Hrun in Hok |- *. cbn [fst snd] in Hok |- *.
  rewrite passed_evaluations_app, Hpassed.
  apply validateActions_Ret_passed. exact Hok.
Qed.

End GuardRuns.

Lemma guard_runs_by_chaincode_name_witness :
  guard_runs (snd (@Invoke (Fixture.collaborators 3 "lscc" ["good"; "upgrade-good"])
                           Fixture.run_args []))
  = (if String.eqb (Name {| Name := "lscc" |}) "lscc"
     then @passed_evaluations (Fixture.collaborators 3 "lscc" ["good"; "upgrade-good"])
            Fixture.policy
            (snd (@Invoke (Fixture.collaborators 3 "lscc" ["good"; "upgrade-good"])
                          Fixture.run_args []))
     else 0)
  /\ (fst (@Invoke (Fixture.collaborators 3 "lscc" ["good"; "upgrade-good"])
                   Fixture.run_args []) = Ret tt ->
      guard_runs (snd (@Invoke (Fixture.collaborators 3 "lscc" ["good"; "upgrade-good"])
                               Fixture.run_args []))
      = if String.eqb (Name {| Name := "lscc" |}) "lscc"
        then length (Actions (Fixture.transaction ["good"; "upgrade-good"]))
        else 0).
Proof.
  apply (@guard_runs_by_chaincode_name
           (Fixture.collaborators 3 "lscc" ["good"; "upgrade-good"])
           Fixture.policy Fixture.header
           {| ChaincodeId := Some {| Name := "lscc" |} |} {| Name := "lscc" |}
           eq_refl eq_refl
           Fixture.run_args (Fixture.transaction ["good"; "upgrade-good"]) Fixture.prelude).
  apply Fixture_unpacks.
Defined.

(** C10, as stated, fails: in a transaction for "lscc" whose first action
    passes and whose second action fails the policy, the guard runs for the
    first action and not for the second, so neither for every action nor for
    none; what kept it from the second action is the endorsement of that
    action. *)
Lemma guard_runs_for_some_actions_only :
  @GetTransaction (Fixture.collaborators 3 "lscc" ["good"; "forged"]) Fixture.envelope
  = Ok (Fixture.transaction ["good"; "forged"])
  /\ length (Actions (Fixture.transaction ["good"; "forged"])) = 2
  /\ guard_runs (snd (@Invoke (Fixture.collaborators 3 "lscc" ["good"; "forged"])
                              Fixture.run_args [])) = 1
  /\ guard_runs (snd (@Invoke (Fixture.collaborators 3 "lscc" ["good"; "good"])
                              Fixture.run_args [])) = 2.
Proof. repeat split. Qed.


(** ** More on the signature set *)

Lemma signatureSet_exact_witness :
  signatureSet (Fixture.endorsed_by (GoSlice.exact (Fixture.b "resp"))
                  [("alice", "respalice"); ("", "resp"); ("bobby", "respbobby")])
  = map (fun e => Some (signed_entry (Fixture.b "resp") e))
        [{| Endorser := Fixture.b "alice"; Signature := Fixture.b "respalice" |};
         {| Endorser := []; Signature := Fixture.b "resp" |};
         {| Endorser := Fixture.b "bobby"; Signature := Fixture.b "respbobby" |}].
Proof.
  apply (signatureSet_exact
           (Fixture.endorsed_by (GoSlice.exact (Fixture.b "resp"))
              [("alice", "respalice"); ("", "resp"); ("bobby", "respbobby")])).
  reflexivity.
Defined.

(** X2. The loop fills every cell of the slice it allocated: the evaluator
    receives no nil pointer. *)
Theorem signatureSet_all_present (ea : ChaincodeEndorsedAction) :
  Forall (fun cell => cell <> None) (signatureSet ea).
Proof.
  apply Forall_lookup_2. intros i cell Hcell.
  pose proof (lookup_lt_Some _ _ _ Hcell) as Hlt.
  rewrite signatureSet_length in Hlt.
  destruct (lookup_lt_is_Some_2 (Endorsements ea) i Hlt) as [e He].
  destruct (signatureSet_lookup ea i e He) as (x & tail & Hx & _).
  rewrite Hx in Hcell. injection Hcell as <-. discriminate.
Qed.

(** X3. An identity that does not fit in the spare capacity of the payload slice
    makes [append] allocate: the entry of that endorsement has the payload
    followed by the identity as data, whatever the other endorsements. *)
Theorem signatureSet_no_room (ea : ChaincodeEndorsedAction) (i : nat) (e : Endorsement) :
  Endorsements ea !! i = Some e ->
  length (GoSlice.spare (ProposalResponsePayload ea)) < length (Endorser e) ->
  signatureSet ea !! i
  = Some (Some (signed_entry (GoSlice.elems (ProposalResponsePayload ea)) e)).
Proof.
  intros He Hroom.
  destruct (signatureSet_lookup ea i e He) as (x & tail & Hx & _ & Hid & Hsig & Hdata).
  rewrite Hx. do 2 f_equal.
  destruct Hdata as [[_ Hle] | [Hown _]]; [lia |].
  unfold freeze, signed_entry. rewrite Hid, Hsig, Hown. reflexivity.
Qed.

Lemma signatureSet_no_room_witness :
  signatureSet (Fixture.endorsed_by {| GoSlice.elems := Fixture.b "resp";
                                       GoSlice.spare := Fixture.b ".." |}
                  [("alice", "respalice"); ("bobby", "respbobby")]) !! 0
  = Some (Some (signed_entry (Fixture.b "resp")
                  {| Endorser := Fixture.b "alice"; Signature := Fixture.b "respalice" |})).
Proof.
  apply (signatureSet_no_room
           (Fixture.endorsed_by {| GoSlice.elems := Fixture.b "resp";
                                   GoSlice.spare := Fixture.b ".." |}
              [("alice", "respalice"); ("bobby", "respbobby")])
           0 {| Endorser := Fixture.b "alice"; Signature := Fixture.b "respalice" |}).
  - reflexivity.
  - apply (Nat.lt_le_trans 2 3 5 (le_n 3)). repeat constructor.
Defined.

Lemma build_loop_snoc (prespBytes : GoSlice.t) (es : list Endorsement) (e : Endorsement) :
  forall i st,
    build_loop prespBytes i (es ++ [e]) st
    = build_step prespBytes (i + length es) e (build_loop prespBytes i es st).
Proof.
  induction es as [| e0 es IH]; intros i st; simpl.
  - rewrite Nat.add_0_r. reflexivity.
  - rewrite IH. f_equal. lia.
Qed.

(** X4. The entry of the last endorsement always has the payload followed by
    the identity as data: nothing is appended after it. In particular the
    set of an action with one endorsement is right whatever the capacity of
    the payload slice. *)
Theorem signatureSet_last (ea : ChaincodeEndorsedAction) (es : list Endorsement)
    (e : Endorsement) :
  Endorsements ea = es ++ [e] ->
  signatureSet ea !! length es
  = Some (Some (signed_entry (GoSlice.elems (ProposalResponsePayload ea)) e)).
Proof.
  intros Hes. unfold signatureSet. cbv zeta. rewrite Hes, build_loop_snoc.
  set (st := build_loop (ProposalResponsePayload ea) 0 es _).
  assert (Hlen : length es < length (fst st)).
  { unfold st. rewrite build_loop_fst_length. simpl.
    rewrite length_replicate, length_app. simpl. lia. }
  change (map ?f ?l) with (f <$> l). rewrite list_lookup_fmap.
  unfold build_step. simpl.
  pose proof (append_read
    {| GoSlice.elems := GoSlice.elems (ProposalResponsePayload ea);
       GoSlice.spare := snd st |} (Endorser e)) as Hread.
  destruct (GoSlice.append _ _) as [r tail]. simpl in *.
  rewrite list_lookup_insert_eq by exact Hlen. simpl.
  unfold freeze, signed_entry. simpl. rewrite Hread. reflexivity.
Qed.

Lemma signatureSet_last_witness :
  signatureSet Fixture.roomy_action !! length [{| Endorser := Fixture.b "alice";
                                                  Signature := Fixture.b "respalice" |}]
  = Some (Some (signed_entry (Fixture.b "resp")
                  {| Endorser := Fixture.b "bobby"; Signature := Fixture.b "respbobby" |})).
Proof.
  apply (signatureSet_last Fixture.roomy_action
           [{| Endorser := Fixture.b "alice"; Signature := Fixture.b "respalice" |}]
           {| Endorser := Fixture.b "bobby"; Signature := Fixture.b "respbobby" |}).
  reflexivity.
Defined.

(** ** More on [Invoke] *)

(** X5. [Invoke] reads its second and third arguments only: two argument
    lists of at least three arguments that agree on [args[1]] and [args[2]]
    give the same outcome and the same calls, whatever the function name in
    [args[0]] and whatever follows the third argument. *)
Theorem Invoke_reads_two_arguments `{Collaborators}
    (args args' : list (option bytes)) (log : list call) :
  3 <= length args -> 3 <= length args' ->
  args !! 1 = args' !! 1 ->
  args !! 2 = args' !! 2 ->
  Invoke args log = Invoke args' log.
Proof.
  intros Hlen Hlen' Hfirst Hsecond. unfold Invoke.
  destruct (Nat.ltb_spec (length args) 3) as [Hlt | _]; [lia |].
  destruct (Nat.ltb_spec (length args') 3) as [Hlt | _]; [lia |].
  unfold index. rewrite Hfirst, Hsecond. reflexivity.
Qed.

Lemma Invoke_reads_two_arguments_witness :
  @Invoke (Fixture.collaborators 3 "mycc" ["good"])
          [Some (Fixture.b "validate"); Some Fixture.envelope; Some Fixture.policy] []
  = @Invoke (Fixture.collaborators 3 "mycc" ["good"])
            [None; Some Fixture.envelope; Some Fixture.policy; Some (Fixture.b "more")] [].
Proof.
  apply (@Invoke_reads_two_arguments (Fixture.collaborators 3 "mycc" ["good"])
           [Some (Fixture.b "validate"); Some Fixture.envelope; Some Fixture.policy]
           [None; Some Fixture.envelope; Some Fixture.policy; Some (Fixture.b "more")] []).
  - apply le_n.
  - apply le_S, le_n.
  - reflexivity.
  - reflexivity.
Defined.

Section InvokeEdges.

Context `{Collaborators}.

(** [Invoke] on arguments that unpack, when the loop stops at [act]. *)
Lemma Invoke_first_failure args policy hdr tx calls pre act post log :
  unpacks args policy hdr tx calls ->
  Actions tx = pre ++ act :: post ->
  Forall (fun a => fst (validateAction policy hdr a []) = Ret tt) pre ->
  fst (validateAction policy hdr act []) <> Ret tt ->
  Invoke args log
  = (fst (validateAction policy hdr act []),
     log ++ calls ++ calls_of policy hdr pre ++ snd (validateAction policy hdr act [])).
Proof.
  intros Hun Hsplit Hpre Hfail.
  rewrite (Invoke_unpacks policy hdr args tx calls log Hun).
  rewrite (appends_validateActions policy hdr (Actions tx) (log ++ calls)).
  rewrite Hsplit, (validateActions_first_failure policy hdr pre act post Hpre Hfail).
  simpl. rewrite <- !app_assoc. reflexivity.
Qed.

(** X6. A transaction without action is accepted as soon as it is unpacked: no
    policy is evaluated and the header extension is not decoded. *)
Theorem Invoke_no_actions args policy hdr tx calls log :
  unpacks args policy hdr tx calls ->
  Actions tx = [] ->
  Invoke args log = (Ret tt, log ++ calls).
Proof.
  intros Hun Hnone.
  rewrite (Invoke_unpacks policy hdr args tx calls log Hun), Hnone. reflexivity.
Qed.

(** X7. A payload that decodes without header makes [Invoke] panic on
    [payl.Header.ChannelHeader], after the envelope and the payload are
    decoded and before the policy is compiled. *)
Theorem Invoke_nil_header_panics args envBytes policyBytes env payl log :
  args !! 1 = Some (Some envBytes) ->
  args !! 2 = Some (Some policyBytes) ->
  GetEnvelopeFromBlock envBytes = Ok env ->
  GetPayload env = Ok payl ->
  Payload_Header payl = None ->
  Invoke args log
  = (Panic NilDereference, log ++ [CGetEnvelopeFromBlock envBytes; CGetPayload env]).
Proof.
  intros Harg1 Harg2 Henv Hpayl Hhdr.
  pose proof (lookup_lt_Some _ _ _ Harg2) as Hlen.
  unfold Invoke.
  destruct (Nat.ltb_spec (length args) 3) as [Hlt | _]; [lia |].
  unfold bind, index, try. rewrite Harg1. simpl. rewrite Harg2. simpl.
  rewrite Henv, Hpayl, Hhdr. simpl. rewrite <- app_assoc. reflexivity.
Qed.

(** X8. An action payload that decodes without endorsed action makes [Invoke]
    panic on [cap.Action.ProposalResponsePayload], before the policy is
    evaluated for that action. *)
Theorem Invoke_nil_action_panics args policy hdr tx calls pre act post cap log :
  unpacks args policy hdr tx calls ->
  Actions tx = pre ++ act :: post ->
  Forall (action_passes policy hdr) pre ->
  GetChaincodeActionPayload (Action_Payload act) = Ok cap ->
  Action cap = None ->
  Invoke args log
  = (Panic NilDereference,
     log ++ calls ++ calls_of policy hdr pre
     ++ [CGetChaincodeActionPayload (Action_Payload act)]).
Proof.
  intros Hun Hsplit Hpre Hcap Hact.
  apply Forall_passes in Hpre.
  assert (Hrun : validateAction policy hdr act []
                 = (Panic NilDereference, [CGetChaincodeActionPayload (Action_Payload act)])).
  { unfold validateAction, bind, try. rewrite Hcap. simpl. rewrite Hact. reflexivity. }
  rewrite (Invoke_first_failure args policy hdr tx calls pre act post log Hun Hsplit Hpre).
  - rewrite Hrun. reflexivity.
  - rewrite Hrun. discriminate.
Qed.

(** X9. A header extension that decodes without chaincode id makes [Invoke]
    panic on [hdrExt.ChaincodeId.Name], once the policy has accepted the
    first action. *)
Theorem Invoke_nil_chaincode_id_panics args policy hdr tx calls act post
    cap endorsed hdrExt log :
  unpacks args policy hdr tx calls ->
  Actions tx = act :: post ->
  GetChaincodeActionPayload (Action_Payload act) = Ok cap ->
  Action cap = Some endorsed ->
  Evaluate policy (signatureSet endorsed) = None ->
  GetChaincodeHeaderExtension hdr = Ok hdrExt ->
  ChaincodeId hdrExt = None ->
  Invoke args log
  = (Panic NilDereference,
     log ++ calls
     ++ [CGetChaincodeActionPayload (Action_Payload act);
         CEvaluate (signatureSet endorsed);
         CGetChaincodeHeaderExtension hdr]).
Proof.
  intros Hun Hsplit Hcap Hact Heval Hext Hccid.
  assert (Hrun : validateAction policy hdr act []
                 = (Panic NilDereference,
                    [CGetChaincodeActionPayload (Action_Payload act);
                     CEvaluate (signatureSet endorsed);
                     CGetChaincodeHeaderExtension hdr])).
  { unfold validateAction, bind, try, evaluate.
    rewrite Hcap. simpl. rewrite Hact. simpl. rewrite Heval, Hext. simpl.
    rewrite Hccid. reflexivity. }
  rewrite (Invoke_first_failure args policy hdr tx calls [] act post log Hun Hsplit).
  - rewrite Hrun. reflexivity.
  - constructor.
  - rewrite Hrun. discriminate.
Qed.

(** X10. A header of another type is rejected once the policy is compiled and
    before the payload data is decoded: the transaction is never read. *)
Theorem Invoke_other_type_calls args envBytes policyBytes env payl hdr chdr policy log :
  args !! 1 = Some (Some envBytes) ->
  args !! 2 = Some (Some policyBytes) ->
  GetEnvelopeFromBlock envBytes = Ok env ->
  GetPayload env = Ok payl ->
  Payload_Header payl = Some hdr ->
  UnmarshalChannelHeader (ChannelHeader_bytes hdr) = Ok chdr ->
  NewPolicy (ChannelId chdr) policyBytes = Ok policy ->
  ChannelHeader_Type chdr <> HeaderType_ENDORSER_TRANSACTION ->
  Invoke args log
  = (Err (OnlyEndorserTransactions (ChannelHeader_Type chdr)),
     log ++ [CGetEnvelopeFromBlock envBytes; CGetPayload env;
             CUnmarshalChannelHeader (ChannelHeader_bytes hdr);
             CNewPolicy (ChannelId chdr) policyBytes]).
Proof.
  intros Harg1 Harg2 Henv Hpayl Hhdr Hchdr Hpolicy Hty.
  pose proof (lookup_lt_Some _ _ _ Harg2) as Hlen.
  unfold Invoke.
  destruct (Nat.ltb_spec (length args) 3) as [Hlt | _]; [lia |].
  unfold bind, index, try. rewrite Harg1. simpl. rewrite Harg2. simpl.
  rewrite Henv, Hpayl, Hhdr. simpl. rewrite Hchdr, Hpolicy.
  destruct (Z.eqb_spec (ChannelHeader_Type chdr) HeaderType_ENDORSER_TRANSACTION)
    as [Heq | _]; [contradiction |].
  simpl. unfold fail. rewrite <- !app_assoc. reflexivity.
Qed.

End InvokeEdges.

Lemma Fixture_good_passes (ccname : string) (acts : list string) :
  ccname <> "lscc" ->
  @action_passes (Fixture.collaborators 3 ccname acts) Fixture.policy Fixture.header
    {| Action_Header := []; Action_Payload := Fixture.b "good" |}.
Proof.
  intros Hname.
  exists {| ChaincodeProposalPayload_bytes := Fixture.b "deploy";
            Action := Some (Fixture.endorsed_by (GoSlice.exact (Fixture.b "resp"))
                              [("alice", "respalice")]) |},
         (Fixture.endorsed_by (GoSlice.exact (Fixture.b "resp")) [("alice", "respalice")]),
         {| ChaincodeId := Some {| Name := ccname |} |}, {| Name := ccname |}.
  repeat (split; [reflexivity |]).
  intros Heq. contradiction.
Qed.

Lemma Fixture_with_parts_unpacks (ccid : option ChaincodeID) (acts : list string)
    (payloads : bytes -> result ChaincodeActionPayload)
    (specs : bytes -> result ChaincodeInvocationSpec) :
  @unpacks (Fixture.with_parts 3 (Some Fixture.header) ccid acts payloads specs)
    Fixture.run_args Fixture.policy Fixture.header (Fixture.transaction acts)
    Fixture.prelude.
Proof.
  exact (@unpacks_intro
           (Fixture.with_parts 3 (Some Fixture.header) ccid acts payloads specs)
           Fixture.run_args Fixture.envelope Fixture.policy _ _ _ _ Fixture.policy _
           eq_refl eq_refl eq_refl eq_refl eq_refl eq_refl eq_refl eq_refl eq_refl).
Defined.

Lemma Invoke_no_actions_witness :
  @Invoke (Fixture.collaborators 3 "mycc" []) Fixture.run_args []
  = (Ret tt, [] ++ Fixture.prelude).
Proof.
  apply (@Invoke_no_actions (Fixture.collaborators 3 "mycc" []) Fixture.run_args
           Fixture.policy Fixture.header (Fixture.transaction []) Fixture.prelude []).
  - apply Fixture_unpacks.
  - reflexivity.
Defined.

Lemma Invoke_nil_header_panics_witness :
  @Invoke Fixture.headless Fixture.run_args []
  = (Panic NilDereference,
     [] ++ [CGetEnvelopeFromBlock Fixture.envelope;
            CGetPayload {| Envelope_Payload := Fixture.envelope;
                           Envelope_Signature := [] |}]).
Proof.
  apply (@Invoke_nil_header_panics Fixture.headless Fixture.run_args
           Fixture.envelope Fixture.policy
           {| Envelope_Payload := Fixture.envelope; Envelope_Signature := [] |}
           {| Payload_Header := None; Payload_Data := Fixture.envelope |} []);
    reflexivity.
Defined.

Lemma Invoke_nil_action_panics_witness :
  @Invoke (Fixture.collaborators 3 "mycc" ["good"; "hollow"; "good"]) Fixture.run_args []
  = (Panic NilDereference,
     [] ++ Fixture.prelude
     ++ @calls_of (Fixture.collaborators 3 "mycc" ["good"; "hollow"; "good"])
          Fixture.policy Fixture.header
          [{| Action_Header := []; Action_Payload := Fixture.b "good" |}]
     ++ [CGetChaincodeActionPayload (Fixture.b "hollow")]).
Proof.
  apply (@Invoke_nil_action_panics
           (Fixture.collaborators 3 "mycc" ["good"; "hollow"; "good"])
           Fixture.run_args Fixture.policy Fixture.header
           (Fixture.transaction ["good"; "hollow"; "good"]) Fixture.prelude
           [{| Action_Header := []; Action_Payload := Fixture.b "good" |}]
           {| Action_Header := []; Action_Payload := Fixture.b "hollow" |}
           [{| Action_Header := []; Action_Payload := Fixture.b "good" |}]
           {| ChaincodeProposalPayload_bytes := Fixture.b "deploy"; Action := None |} []).
  - apply Fixture_unpacks.
  - reflexivity.
  - constructor; [| constructor]. apply Fixture_good_passes. discriminate.
  - reflexivity.
  - reflexivity.
Defined.

Lemma Invoke_nil_chaincode_id_panics_witness :
  @Invoke (Fixture.nameless ["good"]) Fixture.run_args []
  = (Panic NilDereference,
     [] ++ Fixture.prelude
     ++ [CGetChaincodeActionPayload (Fixture.b "good");
         CEvaluate (signatureSet (Fixture.endorsed_by (GoSlice.exact (Fixture.b "resp"))
                                    [("alice", "respalice")]));
         CGetChaincodeHeaderExtension Fixture.header]).
Proof.
  apply (@Invoke_nil_chaincode_id_panics (Fixture.nameless ["good"])
           Fixture.run_args Fixture.policy Fixture.header
           (Fixture.transaction ["good"]) Fixture.prelude
           {| Action_Header := []; Action_Payload := Fixture.b "good" |} []
           {| ChaincodeProposalPayload_bytes := Fixture.b "deploy";
              Action := Some (Fixture.endorsed_by (GoSlice.exact (Fixture.b "resp"))
                                [("alice", "respalice")]) |}
           (Fixture.endorsed_by (GoSlice.exact (Fixture.b "resp")) [("alice", "respalice")])
           {| ChaincodeId := None |} []).
  - apply Fixture_with_parts_unpacks.
  - reflexivity.
  - reflexivity.
  - reflexivity.
  - reflexivity.
  - reflexivity.
  - reflexivity.
Defined.

Lemma Invoke_other_type_calls_witness :
  @Invoke (Fixture.collaborators 1 "mycc" ["good"]) Fixture.run_args []
  = (Err (OnlyEndorserTransactions 1),
     [] ++ [CGetEnvelopeFromBlock Fixture.envelope;
            CGetPayload {| Envelope_Payload := Fixture.envelope;
                           Envelope_Signature := [] |};
            CUnmarshalChannelHeader (Fixture.b "chdr");
            CNewPolicy "testchainid" Fixture.policy]).
Proof.
  apply (@Invoke_other_type_calls (Fixture.collaborators 1 "mycc" ["good"])
           Fixture.run_args Fixture.envelope Fixture.policy
           {| Envelope_Payload := Fixture.envelope; Envelope_Signature := [] |}
           {| Payload_Header := Some Fixture.header; Payload_Data := Fixture.envelope |}
           Fixture.header
           {| ChannelHeader_Type := 1; ChannelId := "testchainid" |}
           Fixture.policy []);
    try reflexivity.
  exact (fun Heq : 1%Z = 3%Z => Z.lt_neq 1 3 eq_refl Heq).
Defined.

(** ** Where the decode errors come from *)

Section Verbatim.

Context `{Collaborators}.

Lemma verbatim_ret {A} (a : A) : verbatim (ret a).
Proof. intros log f log' Hrun. discriminate Hrun. Qed.

Lemma verbatim_raise {A} (p : panic) : verbatim (@raise A p).
Proof. intros log f log' Hrun. discriminate Hrun. Qed.

Lemma verbatim_fail {A} (f : failure) : kind f <> DecodeError -> verbatim (@fail A f).
Proof.
  intros Hkind log f' log' Hrun Hdecode.
  injection Hrun as <- _. contradiction.
Qed.

Lemma verbatim_try {A} (c : call) (r : result A) (wrap : string -> failure) :
  (forall err, r = Error err -> call_error c = Some (message (wrap err))) ->
  verbatim (try c r wrap).
Proof.
  intros Hcall log f log' Hrun _. unfold try in Hrun.
  destruct r as [a | err]; [discriminate Hrun |].
  injection Hrun as <- <-.
  exists c. split; [apply last_snoc | apply Hcall; reflexivity].
Qed.

Lemma verbatim_bind {A B} (m : M A) (k : A -> M B) :
  verbatim m -> (forall a, verbatim (k a)) -> verbatim (bind m k).
Proof.
  intros Hm Hk log f log' Hrun Hdecode. unfold bind in Hrun.
  destruct (m log) as [[a | f0 | p] l1] eqn:Hfirst.
  - exact (Hk a l1 f log' Hrun Hdecode).
  - injection Hrun as <- <-. exact (Hm log f0 l1 Hfirst Hdecode).
  - discriminate Hrun.
Qed.

Lemma verbatim_deref {A} (p : option A) : verbatim (deref p).
Proof. destruct p; [apply verbatim_ret | apply verbatim_raise]. Qed.

Lemma verbatim_index {A} (s : list A) (i : nat) : verbatim (index s i).
Proof. unfold index. destruct (s !! i); [apply verbatim_ret | apply verbatim_raise]. Qed.

Lemma verbatim_non_nil (o : option bytes) (f : failure) :
  kind f <> DecodeError -> verbatim (non_nil o f).
Proof. intros Hkind. destruct o; [apply verbatim_ret | apply verbatim_fail; exact Hkind]. Qed.

Lemma verbatim_evaluate policy ss : verbatim (evaluate policy ss).
Proof.
  intros log f log' Hrun Hdecode. unfold evaluate in Hrun.
  destruct (Evaluate policy ss); [| discriminate Hrun].
  injection Hrun as <- _. discriminate Hdecode.
Qed.

Ltac verbatim_step :=
  first
    [ apply verbatim_ret | apply verbatim_raise
    | apply verbatim_fail; discriminate
    | apply verbatim_non_nil; discriminate
    | apply verbatim_try; intros ? Herr; simpl; rewrite Herr; reflexivity
    | apply verbatim_deref | apply verbatim_index | apply verbatim_evaluate
    | apply verbatim_bind; [| intros ?]
    | match goal with
      | |- verbatim (if ?c then _ else _) => destruct c
      end ].

Lemma verbatim_ValidateLSCCInvocation cap : verbatim (ValidateLSCCInvocation cap).
Proof. unfold ValidateLSCCInvocation. repeat verbatim_step. Qed.

Lemma verbatim_validateAction policy hdr act : verbatim (validateAction policy hdr act).
Proof.
  unfold validateAction.
  repeat first [ apply verbatim_ValidateLSCCInvocation | verbatim_step ].
Qed.

Lemma verbatim_validateActions policy hdr acts : verbatim (validateActions policy hdr acts).
Proof.
  induction acts as [| act rest IH]; simpl.
  - apply verbatim_ret.
  - apply verbatim_bind; [apply verbatim_validateAction | intros _; exact IH].
Qed.

Lemma verbatim_Invoke args : verbatim (Invoke args).
Proof.
  unfold Invoke.
  repeat first [ apply verbatim_validateActions | verbatim_step ].
Qed.

(** X11. Whenever [Invoke] reports a decode failure, at whatever layer, the
    message is the error of the collaborator that was called last, passed on
    unchanged, and nothing is called after it. *)
Theorem Invoke_decode_errors_verbatim (args : list (option bytes))
    (log : list call) (f : failure) (log' : list call) :
  Invoke args log = (Err f, log') ->
  kind f = DecodeError ->
  exists c, last log' = Some c /\ call_error c = Some (message f).
Proof. apply verbatim_Invoke. Qed.

(** X12. Whenever the lifecycle guard returns a decode error, it is the error
    of the collaborator that it called last, returned unchanged. *)
Theorem ValidateLSCCInvocation_decode_errors_verbatim (cap : ChaincodeActionPayload)
    (log : list call) (f : failure) (log' : list call) :
  ValidateLSCCInvocation cap log = (Err f, log') ->
  kind f = DecodeError ->
  exists c, last log' = Some c /\ call_error c = Some (message f).
Proof. apply verbatim_ValidateLSCCInvocation. Qed.

End Verbatim.

Lemma Invoke_decode_errors_verbatim_witness :
  exists c,
    last (snd (@Invoke (Fixture.collaborators 3 "mycc" ["good"; "junk"; "good"])
                       Fixture.run_args []))
    = Some c
    /\ @call_error (Fixture.collaborators 3 "mycc" ["good"; "junk"; "good"]) c
       = Some (message (GetChaincodeActionPayloadFailed "malformed action payload")).
Proof.
  apply (@Invoke_decode_errors_verbatim
           (Fixture.collaborators 3 "mycc" ["good"; "junk"; "good"])
           Fixture.run_args []
           (GetChaincodeActionPayloadFailed "malformed action payload")
           (snd (@Invoke (Fixture.collaborators 3 "mycc" ["good"; "junk"; "good"])
                         Fixture.run_args []))).
  - reflexivity.
  - reflexivity.
Defined.

Lemma ValidateLSCCInvocation_decode_errors_verbatim_witness :
  exists c,
    last (snd (@ValidateLSCCInvocation Fixture.garbled (Fixture.lscc_action "deploy") []))
    = Some c
    /\ @call_error Fixture.garbled c
       = Some (message (UnmarshalInvocationSpecFailed "malformed invocation spec")).
Proof.
  apply (@ValidateLSCCInvocation_decode_errors_verbatim Fixture.garbled
           (Fixture.lscc_action "deploy") []
           (UnmarshalInvocationSpecFailed "malformed invocation spec")
           (snd (@ValidateLSCCInvocation Fixture.garbled (Fixture.lscc_action "deploy") []))).
  - reflexivity.
  - reflexivity.
Defined.

(** ** How often the policy is evaluated *)

Arguments evaluations : simpl never.

Lemma evaluations_app (l1 l2 : list call) :
  evaluations (l1 ++ l2) = evaluations l1 + evaluations l2.
Proof. unfold evaluations. rewrite List.filter_app, length_app. reflexivity. Qed.

Section Evaluations.

Context `{Collaborators}.

Variable policy : Policy.
Variable hdr : Header.

Lemma ValidateLSCCInvocation_no_evaluation cap :
  evaluations (snd (ValidateLSCCInvocation cap [])) = 0.
Proof.
  unfold ValidateLSCCInvocation, bind, try, deref, index, fail, ret, raise.
  destruct (GetChaincodeProposalPayload _) as [cpp | err]; simpl; [| reflexivity].
  destruct (UnmarshalInvocationSpec _) as [cis | err]; simpl; [| reflexivity].
  destruct (invalid_invocation cis); simpl; [reflexivity |].
  destruct (ChaincodeSpec_ cis) as [spec |]; simpl; [| reflexivity].
  destruct (Input spec) as [input |]; simpl; [| reflexivity].
  destruct (Args input) as [args |]; simpl; [| reflexivity].
  destruct (args !! 0) as [arg0 |]; simpl; [| reflexivity].
  destruct (String.eqb (string_of_bytes arg0) DEPLOY); simpl; [reflexivity |].
  destruct (String.eqb (string_of_bytes arg0) UPGRADE); reflexivity.
Qed.

(** The body of the loop evaluates the policy at most once, and once when it
    succeeds. *)
Lemma validateAction_evaluations act :
  evaluations (snd (validateAction policy hdr act [])) <= 1
  /\ (fst (validateAction policy hdr act []) = Ret tt ->
      evaluations (snd (validateAction policy hdr act [])) = 1).
Proof.
  unfold validateAction, bind, try, deref, evaluate.
  destruct (GetChaincodeActionPayload (Action_Payload act)) as [cap | err]; simpl;
    [| split; [unfold evaluations; simpl; lia | discriminate]].
  destruct (Action cap) as [endorsed |]; simpl;
    [| split; [unfold evaluations; simpl; lia | discriminate]].
  destruct (Evaluate policy (signatureSet endorsed)) as [err |]; simpl;
    [split; [unfold evaluations; simpl; lia | discriminate] |].
  destruct (GetChaincodeHeaderExtension hdr) as [hdrExt | err]; simpl;
    [| split; [unfold evaluations; simpl; lia | discriminate]].
  destruct (ChaincodeId hdrExt) as [ccid |]; simpl;
    [| split; [unfold evaluations; simpl; lia | discriminate]].
  destruct (String.eqb (Name ccid) "lscc").
  - rewrite (appends_ValidateLSCCInvocation cap _). cbn [fst snd].
    rewrite evaluations_app, ValidateLSCCInvocation_no_evaluation.
    unfold evaluations. simpl. split; [lia | reflexivity].
  - unfold evaluations. simpl. split; [lia | reflexivity].
Qed.

Lemma validateActions_evaluations acts :
  evaluations (snd (validateActions policy hdr acts [])) <= length acts
  /\ (fst (validateActions policy hdr acts []) = Ret tt ->
      evaluations (snd (validateActions policy hdr acts [])) = length acts).
Proof.
  induction acts as [| act rest [IHle IHeq]].
  - split; [apply le_n | reflexivity].
  - destruct (validateAction_evaluations act) as [Hle Heq].
    rewrite validateActions_cons.
    destruct (validateAction policy hdr act []) as [[[] | f | p] l] eqn:Hrun;
      cbn [fst snd] in *.
    + rewrite (appends_validateActions policy hdr rest l). cbn [fst snd length].
      rewrite evaluations_app, (Heq eq_refl). split; [lia |].
      intros Hok. rewrite (IHeq Hok). reflexivity.
    + split; [simpl; lia | discriminate].
    + split; [simpl; lia | discriminate].
Qed.

(** X13. [Invoke] evaluates the policy at most once per action, and exactly once
    per action when it accepts the transaction. *)
Theorem Invoke_evaluates_once_per_action (args : list (option bytes)) tx calls :
  unpacks args policy hdr tx calls ->
  evaluations (snd (Invoke args [])) <= length (Actions tx)
  /\ (fst (Invoke args []) = Ret tt ->
      evaluations (snd (Invoke args [])) = length (Actions tx)).
Proof.
  intros Hun.
  pose proof (Invoke_unpacks policy hdr args tx calls [] Hun) as Hrun.
  change ([] ++ calls) with calls in Hrun.
  rewrite (appends_validateActions policy hdr (Actions tx) calls) in Hrun.
  assert (Hcalls : evaluations calls = 0) by (destruct Hun; reflexivity).
  destruct (validateActions_evaluations (Actions tx)) as [Hle Heq].
  rewrite Hrun. cbn [fst snd]. rewrite evaluations_app, Hcalls. simpl.
  split; [exact Hle | exact Heq].
Qed.

End Evaluations.

Lemma Invoke_evaluates_once_per_action_witness :
  evaluations (snd (@Invoke (Fixture.collaborators 3 "lscc" ["good"; "forged"; "good"])
                            Fixture.run_args []))
  <= length (Actions (Fixture.transaction ["good"; "forged"; "good"]))
  /\ (fst (@Invoke (Fixture.collaborators 3 "lscc" ["good"; "forged"; "good"])
                   Fixture.run_args []) = Ret tt ->
      evaluations (snd (@Invoke (Fixture.collaborators 3 "lscc" ["good"; "forged"; "good"])
                                Fixture.run_args []))
      = length (Actions (Fixture.transaction ["good"; "forged"; "good"]))).
Proof.
  apply (@Invoke_evaluates_once_per_action
           (Fixture.collaborators 3 "lscc" ["good"; "forged"; "good"])
           Fixture.policy Fixture.header Fixture.run_args
           (Fixture.transaction ["good"; "forged"; "good"]) Fixture.prelude).
  apply Fixture_unpacks.
Defined.

(** ** The arguments that the guard reads *)

(** X14. The guard reads the first argument of the invocation only: two
    specifications with the same function name get the same answer, whatever
    their other arguments and whatever else the actions carry. *)
Theorem ValidateLSCCInvocation_reads_first_argument `{Collaborators}
    cap1 cis1 cap2 cis2 (arg0 : bytes) (rest1 rest2 : list bytes) (log1 log2 : list call) :
  decodes_to cap1 cis1 -> has_args cis1 (arg0 :: rest1) ->
  decodes_to cap2 cis2 -> has_args cis2 (arg0 :: rest2) ->
  fst (ValidateLSCCInvocation cap1 log1) = fst (ValidateLSCCInvocation cap2 log2).
Proof.
  intros Hdec1 Hargs1 Hdec2 Hargs2.
  rewrite (ValidateLSCCInvocation_args cap1 cis1 (arg0 :: rest1) log1 Hdec1 Hargs1).
  rewrite (ValidateLSCCInvocation_args cap2 cis2 (arg0 :: rest2) log2 Hdec2 Hargs2).
  reflexivity.
Qed.

Lemma Fixture_worded_decodes_to (spec : string) :
  @decodes_to Fixture.worded (Fixture.lscc_action spec)
    (Fixture.spec_with (Some [take 6 (Fixture.b spec); drop 6 (Fixture.b spec)])).
Proof.
  exists {| Input_bytes := Fixture.b spec |}. split; reflexivity.
Defined.

Lemma Fixture_spec_with_has_args (args : list bytes) :
  has_args (Fixture.spec_with (Some args)) args.
Proof.
  exists {| Input := Some {| Args := Some args |} |}, {| Args := Some args |}.
  split; [reflexivity |]. split; reflexivity.
Defined.

Lemma ValidateLSCCInvocation_reads_first_argument_witness :
  fst (@ValidateLSCCInvocation Fixture.worded (Fixture.lscc_action "deploy mycc") [])
  = fst (@ValidateLSCCInvocation Fixture.worded (Fixture.lscc_action "deploy othercc") []).
Proof.
  apply (@ValidateLSCCInvocation_reads_first_argument Fixture.worded
           (Fixture.lscc_action "deploy mycc")
           (Fixture.spec_with (Some [Fixture.b "deploy"; Fixture.b " mycc"]))
           (Fixture.lscc_action "deploy othercc")
           (Fixture.spec_with (Some [Fixture.b "deploy"; Fixture.b " othercc"]))
           (Fixture.b "deploy") [Fixture.b " mycc"] [Fixture.b " othercc"] [] []).
  - exact (Fixture_worded_decodes_to "deploy mycc").
  - apply Fixture_spec_with_has_args.
  - exact (Fixture_worded_decodes_to "deploy othercc").
  - apply Fixture_spec_with_has_args.
Defined.

(** ** When [Invoke] cannot panic *)

Section NeverPanics.

Context `{Collaborators}.

Hypothesis decoders_complete : complete.

Lemma never_panics_ret {A} (a : A) : never_panics (ret a).
Proof. intros log p. discriminate. Qed.

Lemma never_panics_fail {A} (f : failure) : never_panics (@fail A f).
Proof. intros log p. discriminate. Qed.

Lemma never_panics_non_nil (o : option bytes) (f : failure) : never_panics (non_nil o f).
Proof. destruct o; [apply never_panics_ret | apply never_panics_fail]. Qed.

Lemma never_panics_evaluate policy ss : never_panics (evaluate policy ss).
Proof. intros log p. unfold evaluate. simpl. destruct (Evaluate policy ss); discriminate. Qed.

Lemma never_panics_bind {A B} (m : M A) (k : A -> M B) :
  never_panics m -> (forall a, never_panics (k a)) -> never_panics (bind m k).
Proof.
  intros Hm Hk log p. unfold bind.
  pose proof (Hm log) as Hfirst.
  destruct (m log) as [[a | f | p0] l1]; simpl in *.
  - apply Hk.
  - discriminate.
  - exfalso. exact (Hfirst p0 eq_refl).
Qed.

(** After a call that succeeded, the rest runs on what it returned. *)
Lemma never_panics_try_bind {A B} (c : call) (r : result A) (wrap : string -> failure)
    (k : A -> M B) :
  (forall a, r = Ok a -> never_panics (k a)) -> never_panics (bind (try c r wrap) k).
Proof.
  intros Hk log p. unfold bind, try.
  destruct r as [a | err]; simpl; [apply (Hk a eq_refl) | discriminate].
Qed.

(** After the dereference of a pointer that is not nil. *)
Lemma never_panics_deref_bind {A B} (ptr : option A) (k : A -> M B) :
  ptr <> None -> (forall a, ptr = Some a -> never_panics (k a)) ->
  never_panics (bind (deref ptr) k).
Proof.
  intros Hptr Hk log p. unfold bind, deref.
  destruct ptr as [a |]; [| contradiction].
  simpl. apply (Hk a eq_refl).
Qed.

Lemma never_panics_ValidateLSCCInvocation cap : never_panics (ValidateLSCCInvocation cap).
Proof.
  unfold ValidateLSCCInvocation.
  apply never_panics_try_bind. intros cpp _.
  apply never_panics_try_bind. intros cis Hcis.
  pose proof (complete_args decoders_complete _ _ Hcis) as Hargs.
  unfold invalid_invocation, has_args in *.
  destruct (ChaincodeSpec_ cis) as [spec |]; [| apply never_panics_fail].
  destruct (Input spec) as [input |] eqn:Hinput; [| apply never_panics_fail].
  destruct (Args input) as [args |] eqn:Hlist; [| apply never_panics_fail].
  intros log p. unfold bind, deref, index, ret. simpl. rewrite Hinput. simpl.
  rewrite Hlist. simpl.
  destruct args as [| arg0 rest]; simpl.
  - exfalso. apply Hargs. exists spec, input. repeat split; assumption.
  - destruct (String.eqb (string_of_bytes arg0) DEPLOY); [discriminate |].
    destruct (String.eqb (string_of_bytes arg0) UPGRADE); discriminate.
Qed.

Lemma never_panics_validateAction policy hdr act :
  never_panics (validateAction policy hdr act).
Proof.
  unfold validateAction.
  apply never_panics_try_bind. intros cap Hcap.
  apply never_panics_deref_bind;
    [exact (complete_action decoders_complete _ _ Hcap) | intros endorsed _].
  apply never_panics_bind; [apply never_panics_evaluate | intros _].
  apply never_panics_try_bind. intros hdrExt Hext.
  apply never_panics_deref_bind;
    [exact (complete_chaincode_id decoders_complete _ _ Hext) | intros ccid _].
  destruct (String.eqb (Name ccid) "lscc");
    [apply never_panics_ValidateLSCCInvocation | apply never_panics_ret].
Qed.

Lemma never_panics_validateActions policy hdr acts :
  never_panics (validateActions policy hdr acts).
Proof.
  induction acts as [| act rest IH]; simpl.
  - apply never_panics_ret.
  - apply never_panics_bind; [apply never_panics_validateAction | intros _; exact IH].
Qed.

(** X15. When the decoders leave no nil pointer where the validator dereferences
    one (payload header, endorsed action, chaincode id) and no non-nil empty
    argument list, [Invoke] never panics: every run ends with success or
    with a reported failure. *)
Theorem Invoke_never_panics (args : list (option bytes)) (log : list call) :
  (exists f, fst (Invoke args log) = Err f) \/ fst (Invoke args log) = Ret tt.
Proof.
  assert (Hno : never_panics (Invoke args)).
  { unfold Invoke.
    destruct (Nat.ltb_spec (length args) 3) as [Hlt | Hge]; [apply never_panics_fail |].
    destruct (lookup_lt_is_Some_2 args 1) as [arg1 Harg1]; [lia |].
    destruct (lookup_lt_is_Some_2 args 2) as [arg2 Harg2]; [lia |].
    unfold index. rewrite Harg1, Harg2.
    apply never_panics_bind; [apply never_panics_ret | intros a1].
    apply never_panics_bind; [apply never_panics_non_nil | intros envBytes].
    apply never_panics_bind; [apply never_panics_ret | intros a2].
    apply never_panics_bind; [apply never_panics_non_nil | intros policyBytes].
    apply never_panics_try_bind. intros env _.
    apply never_panics_try_bind. intros payl Hpayl.
    apply never_panics_deref_bind;
      [exact (complete_header decoders_complete _ _ Hpayl) | intros hdr _].
    apply never_panics_try_bind. intros chdr _.
    apply never_panics_try_bind. intros policy _.
    destruct (negb _); [apply never_panics_fail |].
    apply never_panics_try_bind. intros tx _.
    apply never_panics_validateActions. }
  specialize (Hno log).
  destruct (fst (Invoke args log)) as [[] | f | p].
  - right. reflexivity.
  - left. exists f. reflexivity.
  - exfalso. exact (Hno p eq_refl).
Qed.

End NeverPanics.

Lemma Fixture_tidy_complete (acts : list string) : @complete (Fixture.tidy acts).
Proof.
  constructor.
  - intros env payl Hpayl. injection Hpayl as <-. discriminate.
  - intros data cap Hcap. simpl in Hcap. unfold Fixture.tidy_payloads in Hcap.
    destruct (Fixture.bytes_eqb data (Fixture.b "bogus")); [discriminate Hcap |].
    injection Hcap as <-. discriminate.
  - intros hdr hdrExt Hext. injection Hext as <-. discriminate.
  - intros data cis Hcis (spec & input & Hspec & Hinput & Hargs).
    injection Hcis as <-. simpl in Hspec. injection Hspec as <-.
    simpl in Hinput. injection Hinput as <-. discriminate Hargs.
Qed.

Lemma Invoke_never_panics_witness :
  (exists f, fst (@Invoke (Fixture.tidy ["deploy"; "bogus"]) Fixture.run_args []) = Err f)
  \/ fst (@Invoke (Fixture.tidy ["deploy"; "bogus"]) Fixture.run_args []) = Ret tt.
Proof.
  apply (@Invoke_never_panics (Fixture.tidy ["deploy"; "bogus"])
           (Fixture_tidy_complete ["deploy"; "bogus"]) Fixture.run_args []).
Defined.

(** ** Which endorsement an entry comes from *)

(** Two endorsements whose identities have the same length and fit in the
    spare capacity of the payload slice. *)
Lemma signatureSet_two_fitting (resp : GoSlice.t) (e1 e2 : Endorsement) :
  length (Endorser e1) = length (Endorser e2) ->
  length (Endorser e2) <= length (GoSlice.spare resp) ->
  signatureSet {| ProposalResponsePayload := resp; Endorsements := [e1; e2] |}
  = [Some {| Data := GoSlice.elems resp ++ Endorser e2;
             Identity := Endorser e1;
             SignedData_Signature := Signature e1 |};
     Some (signed_entry (GoSlice.elems resp) e2)].
Proof.
  intros Hsame Hfits.
  unfold signatureSet, build_loop, build_step, GoSlice.append.
  cbn [length replicate fst snd ProposalResponsePayload Endorsements
       GoSlice.elems GoSlice.spare].
  rewrite Hsame.
  destruct (Nat.leb_spec (length (Endorser e2)) (length (GoSlice.spare resp)))
    as [_ | Hgt]; [| lia].
  cbn [fst snd].
  destruct (Nat.leb_spec (length (Endorser e2))
              (length (Endorser e1 ++ drop (length (Endorser e2)) (GoSlice.spare resp))))
    as [_ | Hgt].
  2: { rewrite length_app, length_drop in Hgt. lia. }
  cbn. unfold freeze, signed_entry. cbn.
  rewrite take_app_length. reflexivity.
Qed.

(** C5. The entry at index 0 is not derived from the endorsement at index 0
    alone: when the identities of two successive endorsements have the same
    length and fit in the spare capacity of the payload slice, the data of
    the first entry is the payload followed by the identity of the second
    endorser, so that changing the second endorsement changes the first
    entry. *)
Theorem signatureSet_entry_follows_later_endorsement (resp : GoSlice.t)
    (e1 e2 e2' : Endorsement) :
  length (Endorser e1) = length (Endorser e2) ->
  length (Endorser e1) = length (Endorser e2') ->
  length (Endorser e1) <= length (GoSlice.spare resp) ->
  Endorser e2 <> Endorser e2' ->
  (exists sd,
     signatureSet {| ProposalResponsePayload := resp; Endorsements := [e1; e2] |} !! 0
     = Some (Some sd)
     /\ Identity sd = Endorser e1
     /\ Data sd = GoSlice.elems resp ++ Endorser e2)
  /\ signatureSet {| ProposalResponsePayload := resp; Endorsements := [e1; e2] |} !! 0
     <> signatureSet {| ProposalResponsePayload := resp; Endorsements := [e1; e2'] |} !! 0.
Proof.
  intros Hsame Hsame' Hfits Hdiffer.
  rewrite (signatureSet_two_fitting resp e1 e2) by lia.
  rewrite (signatureSet_two_fitting resp e1 e2') by lia.
  split.
  - eexists. split; [reflexivity |]. split; reflexivity.
  - simpl. intros Heq. injection Heq as Heq.
    apply app_inv_head in Heq. contradiction.
Qed.

Lemma signatureSet_entry_follows_later_endorsement_witness :
  (exists sd,
     signatureSet Fixture.roomy_action !! 0 = Some (Some sd)
     /\ Identity sd = Fixture.b "alice"
     /\ Data sd = Fixture.b "resp" ++ Fixture.b "bobby")
  /\ signatureSet Fixture.roomy_action !! 0 <> signatureSet Fixture.roomy_action' !! 0.
Proof.
  apply (signatureSet_entry_follows_later_endorsement
           {| GoSlice.elems := Fixture.b "resp"; GoSlice.spare := Fixture.b "....." |}
           {| Endorser := Fixture.b "alice"; Signature := Fixture.b "respalice" |}
           {| Endorser := Fixture.b "bobby"; Signature := Fixture.b "respbobby" |}
           {| Endorser := Fixture.b "carol"; Signature := Fixture.b "respcarol" |}).
  - reflexivity.
  - reflexivity.
  - apply le_n.
  - discriminate.
Defined.

(** ** Past the check of the arguments *)

Lemma bind_ret {A B} (a : A) (k : A -> M B) : bind (ret a) k = k a.
Proof. reflexivity. Qed.

Lemma no_argument_error_ret {A} (a : A) : no_argument_error (ret a).
Proof. intros log. discriminate. Qed.

Lemma no_argument_error_raise {A} (p : panic) : no_argument_error (@raise A p).
Proof. intros log. discriminate. Qed.

Lemma no_argument_error_fail {A} (f : failure) :
  kind f <> ArgumentError -> no_argument_error (@fail A f).
Proof. intros Hkind log. simpl. congruence. Qed.

Lemma no_argument_error_try {A} (c : call) (r : result A) (wrap : string -> failure) :
  (forall err, kind (wrap err) <> ArgumentError) -> no_argument_error (try c r wrap).
Proof.
  intros Hkind log. unfold try. destruct r as [a | err]; simpl; [discriminate |].
  specialize (Hkind err). congruence.
Qed.

Lemma no_argument_error_deref {A} (p : option A) : no_argument_error (deref p).
Proof. destruct p; [apply no_argument_error_ret | apply no_argument_error_raise]. Qed.

Lemma no_argument_error_index {A} (s : list A) (i : nat) : no_argument_error (index s i).
Proof.
  unfold index.
  destruct (s !! i); [apply no_argument_error_ret | apply no_argument_error_raise].
Qed.

Lemma no_argument_error_bind {A B} (m : M A) (k : A -> M B) :
  no_argument_error m -> (forall a, no_argument_error (k a)) ->
  no_argument_error (bind m k).
Proof.
  intros Hm Hk log. unfold bind.
  pose proof (Hm log) as Hfirst.
  destruct (m log) as [[a | f | p] l1]; simpl in *.
  - apply Hk.
  - exact Hfirst.
  - discriminate.
Qed.

(** The first call of a computation that starts with a call. *)
Lemma bind_try_first_call {A B} (c : call) (r : result A) (wrap : string -> failure)
    (k : A -> M B) (log : list call) :
  (forall a, appends (k a)) ->
  exists calls, snd (bind (try c r wrap) k log) = log ++ c :: calls.
Proof.
  intros Hk. unfold bind, try.
  destruct r as [a | err]; simpl.
  - rewrite (Hk a (log ++ [c])). simpl.
    exists (snd (k a [])). rewrite <- app_assoc. reflexivity.
  - exists []. reflexivity.
Qed.

Ltac no_argument_error_step :=
  first
    [ apply no_argument_error_ret | apply no_argument_error_raise
    | apply no_argument_error_fail; discriminate
    | apply no_argument_error_try; intros ?; discriminate
    | apply no_argument_error_deref | apply no_argument_error_index
    | apply no_argument_error_bind; [| intros ?]
    | match goal with
      | |- no_argument_error (if ?c then _ else _) => destruct c
      end ].

Section PastArguments.

Context `{Collaborators}.

Lemma no_argument_error_evaluate policy ss : no_argument_error (evaluate policy ss).
Proof.
  intros log. unfold evaluate. simpl. destruct (Evaluate policy ss); discriminate.
Qed.

Lemma no_argument_error_ValidateLSCCInvocation cap :
  no_argument_error (ValidateLSCCInvocation cap).
Proof. unfold ValidateLSCCInvocation. repeat no_argument_error_step. Qed.

Lemma no_argument_error_validateActions policy hdr acts :
  no_argument_error (validateActions policy hdr acts).
Proof.
  induction acts as [| act rest IH]; simpl.
  - apply no_argument_error_ret.
  - apply no_argument_error_bind; [| intros _; exact IH].
    unfold validateAction.
    repeat first [ apply no_argument_error_evaluate
                 | apply no_argument_error_ValidateLSCCInvocation
                 | no_argument_error_step ].
Qed.

Variable args : list (option bytes).
Variables envBytes policyBytes : bytes.

Hypothesis envelope_present : args !! 1 = Some (Some envBytes).
Hypothesis policy_present : args !! 2 = Some (Some policyBytes).

(** With both arguments present, [Invoke] goes straight to the decoder. *)
Ltac reach_decoder :=
  pose proof (lookup_lt_Some _ _ _ policy_present) as Hlen;
  unfold Invoke;
  destruct (Nat.ltb_spec (length args) 3) as [Hlt | _]; [lia |];
  unfold index; rewrite envelope_present, policy_present;
  cbv beta iota; rewrite bind_ret;
  change (non_nil (Some envBytes) NoBlockToValidate) with (@ret bytes envBytes);
  rewrite bind_ret; rewrite bind_ret;
  change (non_nil (Some policyBytes) NoPolicySupplied) with (@ret bytes policyBytes);
  rewrite bind_ret.

Lemma Invoke_present_no_argument_error : no_argument_error (Invoke args).
Proof.
  reach_decoder.
  repeat first [ apply no_argument_error_validateActions | no_argument_error_step ].
Qed.

Lemma Invoke_present_first_call (log : list call) :
  exists calls, snd (Invoke args log) = log ++ CGetEnvelopeFromBlock envBytes :: calls.
Proof.
  reach_decoder.
  apply bind_try_first_call. intros env.
  repeat first [ apply appends_validateActions | appends_step ].
Qed.

Lemma Invoke_present_policy_call (log : list call) env payl hdr chdr :
  GetEnvelopeFromBlock envBytes = Ok env ->
  GetPayload env = Ok payl ->
  Payload_Header payl = Some hdr ->
  UnmarshalChannelHeader (ChannelHeader_bytes hdr) = Ok chdr ->
  In (CNewPolicy (ChannelId chdr) policyBytes) (snd (Invoke args log)).
Proof.
  intros Henv Hpayl Hhdr Hchdr.
  rewrite (appends_snd _ log (appends_Invoke args)).
  apply in_or_app. right.
  pose proof (lookup_lt_Some _ _ _ policy_present) as Hlen.
  unfold Invoke.
  destruct (Nat.ltb_spec (length args) 3) as [Hlt | _]; [lia |].
  unfold bind, index, try. rewrite envelope_present. simpl. rewrite policy_present. simpl.
  rewrite Henv, Hpayl, Hhdr. simpl. rewrite Hchdr.
  destruct (NewPolicy (ChannelId chdr) policyBytes) as [policy | err];
    [| simpl; tauto].
  destruct (negb _); [simpl; tauto |].
  destruct (GetTransaction (Payload_Data payl)) as [tx | err]; [| simpl; tauto].
  rewrite (appends_validateActions policy hdr (Actions tx) _). simpl. tauto.
Qed.

End PastArguments.

(** C6, as the code has it. [Invoke] reports an argument error, and calls no
    collaborator, when it has fewer than three arguments or when the
    envelope or the policy is nil. An envelope and a policy that are not
    nil, empty or not, pass the check: the failure, if any, is of another
    kind, the envelope bytes go to [GetEnvelopeFromBlock] as the first call,
    and the policy bytes go to the policy provider once the layers above
    the channel header have decoded. *)
Theorem Invoke_argument_error_when_absent `{Collaborators} (args : list (option bytes))
    (log : list call) :
  (length args < 3 \/ args !! 1 = Some None \/ args !! 2 = Some None ->
   exists f, Invoke args log = (Err f, log) /\ kind f = ArgumentError)
  /\ (forall envBytes policyBytes,
        args !! 1 = Some (Some envBytes) ->
        args !! 2 = Some (Some policyBytes) ->
        failure_kind (fst (Invoke args log)) <> Some ArgumentError
        /\ (exists calls,
              snd (Invoke args log) = log ++ CGetEnvelopeFromBlock envBytes :: calls)
        /\ (forall env payl hdr chdr,
              GetEnvelopeFromBlock envBytes = Ok env ->
              GetPayload env = Ok payl ->
              Payload_Header payl = Some hdr ->
              UnmarshalChannelHeader (ChannelHeader_bytes hdr) = Ok chdr ->
              In (CNewPolicy (ChannelId chdr) policyBytes) (snd (Invoke args log)))).
Proof.
  split.
  - apply Invoke_argument_check.
  - intros envBytes policyBytes Henv Hpolicy. split; [| split].
    + apply (Invoke_present_no_argument_error args envBytes policyBytes Henv Hpolicy).
    + apply (Invoke_present_first_call args envBytes policyBytes Henv Hpolicy).
    + intros env payl hdr chdr.
      apply (Invoke_present_policy_call args envBytes policyBytes Henv Hpolicy).
Qed.

Lemma Invoke_argument_error_when_absent_witness :
  failure_kind
    (fst (@Invoke (Fixture.collaborators 3 "mycc" ["good"])
                  (Fixture.args (Some []) (Some [])) []))
  <> Some ArgumentError
  /\ (exists calls,
        snd (@Invoke (Fixture.collaborators 3 "mycc" ["good"])
                     (Fixture.args (Some []) (Some [])) [])
        = [] ++ CGetEnvelopeFromBlock [] :: calls)
  /\ (forall env payl hdr chdr,
        @GetEnvelopeFromBlock (Fixture.collaborators 3 "mycc" ["good"]) [] = Ok env ->
        @GetPayload (Fixture.collaborators 3 "mycc" ["good"]) env = Ok payl ->
        Payload_Header payl = Some hdr ->
        @UnmarshalChannelHeader (Fixture.collaborators 3 "mycc" ["good"])
          (ChannelHeader_bytes hdr) = Ok chdr ->
        In (CNewPolicy (ChannelId chdr) [])
           (snd (@Invoke (Fixture.collaborators 3 "mycc" ["good"])
                         (Fixture.args (Some []) (Some [])) []))).
Proof.
  apply (proj2 (@Invoke_argument_error_when_absent
                  (Fixture.collaborators 3 "mycc" ["good"])
                  (Fixture.args (Some []) (Some [])) []) [] []).
  - reflexivity.
  - reflexivity.
Defined.

(** ** The read of the first argument *)

Section FirstArgument.

Context `{Collaborators}.

Hypothesis decoder : repeated_nil_or_nonempty.

Lemma ValidateLSCCInvocation_no_panic cap log p :
  fst (ValidateLSCCInvocation cap log) <> Panic p.
Proof.
  revert log p. change (never_panics (ValidateLSCCInvocation cap)).
  unfold ValidateLSCCInvocation.
  apply never_panics_try_bind. intros cpp _.
  apply never_panics_try_bind. intros cis Hcis.
  pose proof (decoder _ _ Hcis) as Hargs.
  unfold invalid_invocation, has_args in *.
  destruct (ChaincodeSpec_ cis) as [spec |]; [| apply never_panics_fail].
  destruct (Input spec) as [input |] eqn:Hinput; [| apply never_panics_fail].
  destruct (Args input) as [args |] eqn:Hlist; [| apply never_panics_fail].
  intros log p. unfold bind, deref, index, ret. simpl. rewrite Hinput. simpl.
  rewrite Hlist. simpl.
  destruct args as [| arg0 rest]; simpl.
  - exfalso. apply Hargs. exists spec, input. repeat split; assumption.
  - destruct (String.eqb (string_of_bytes arg0) DEPLOY); [discriminate |].
    destruct (String.eqb (string_of_bytes arg0) UPGRADE); discriminate.
Qed.

Lemma ValidateLSCCInvocation_no_arguments cap cis log :
  decodes_to cap cis ->
  arguments cis = [] ->
  fst (ValidateLSCCInvocation cap log) = Err InvalidVSCCInvocation.
Proof.
  intros Hdec Hnone.
  rewrite (ValidateLSCCInvocation_decoded cap cis log Hdec).
  destruct Hdec as (cpp & _ & Hcis).
  pose proof (decoder _ _ Hcis) as Hargs.
  unfold arguments in Hnone. unfold invalid_invocation, has_args in *.
  destruct (ChaincodeSpec_ cis) as [spec |]; [| reflexivity].
  destruct (Input spec) as [input |] eqn:Hinput; [| reflexivity].
  destruct (Args input) as [args |] eqn:Hlist; [| reflexivity].
  exfalso. apply Hargs. exists spec, input. subst args. repeat split; assumption.
Qed.


End FirstArgument.

Lemma Fixture_wire_decoder : @repeated_nil_or_nonempty Fixture.wire.
Proof.
  intros data cis Hcis (spec & input & Hspec & Hinput & Hargs).
  simpl in Hcis. unfold Fixture.wire_specs in Hcis.
  destruct data as [| byte0 data]; injection Hcis as <-;
    simpl in Hspec; injection Hspec as <-;
    simpl in Hinput; injection Hinput as <-; discriminate Hargs.
Qed.


(** An invocation without argument, and one with the argument "deploy", as
    that decoder gives them. *)
Example guard_on_decoded_arguments :
  @decodes_to Fixture.wire (Fixture.lscc_action "") (Fixture.spec_with None)
  /\ arguments (Fixture.spec_with None) = []
  /\ fst (@ValidateLSCCInvocation Fixture.wire (Fixture.lscc_action "") [])
     = Err InvalidVSCCInvocation
  /\ fst (@ValidateLSCCInvocation Fixture.wire (Fixture.lscc_action "deploy") [])
     = Ret tt.
Proof.
  split; [exists {| Input_bytes := [] |}; split; reflexivity |].
  repeat split.
Qed.
